(** * agent_skill.display: terminal presentation and keyboard navigation

    A shallow embedding of [src/agent_skill/display.py]: the text helpers
    [rating_stars] and [truncate], the key decoder [_read_key] on both of
    its platform branches, and the redraw-on-keypress loops of
    [display_search_results] and [display_agent_selection].

    Conventions of the embedding.
    - A Python [str] is a sequence of Unicode code points: [list N].
      [len] is the number of code points, as in Python.
    - A Python [int] is a [Z]; a Python [float] is a binary64 primitive
      float.
    - A Python [set] of ids is a [gset]; [list(selected)] is [elements].
    - A raised exception is an explicit outcome ([None], or a constructor
      of the step result), never a silent default.
    - Every write to the terminal can raise: a redraw, entering and
      leaving the Live display, and the plain print of the fallback. The
      [terminal] record says which of them do. *)

From Stdlib Require Import ZArith List String Ascii Lia.
From Stdlib Require Import DecimalString DecimalZ.
From Stdlib Require Import Floats.PrimFloat Floats.SpecFloat Floats.FloatOps.
From stdpp Require Import gmap list.

Local Open Scope Z_scope.

(** ** Python strings and sequences *)

Module Py.

(** [str]: a sequence of code points. *)
Abbreviation str := (list N).

(** A literal whose characters are all ASCII. *)
Definition lit (s : string) : str :=
  List.map N_of_ascii (list_ascii_of_string s).

(** [len(s)] *)
Definition len {A} (l : list A) : Z := Z.of_nat (List.length l).

(** [s * n]: repetition; a count below one gives the empty sequence. *)
Definition rep {A} (l : list A) (n : Z) : list A :=
  List.concat (List.repeat l (Z.to_nat n)).

(** [s[:k]]: a negative stop counts from the end, and never goes below
    the start. *)
Definition slice_to {A} (l : list A) (k : Z) : list A :=
  if 0 <=? k then firstn (Z.to_nat k) l
  else firstn (Z.to_nat (len l + k)) l.

(** [l[i]]: a negative index counts from the end; out of range raises
    IndexError ([None]). *)
Definition index {A} (l : list A) (i : Z) : option A :=
  if 0 <=? i then nth_error l (Z.to_nat i)
  else if - len l <=? i then nth_error l (Z.to_nat (len l + i))
  else None.

(** [a % n] on ints: floored, the sign of the divisor; a zero divisor
    raises ZeroDivisionError ([None]). *)
Definition mod_ (a n : Z) : option Z :=
  if n =? 0 then None else Some (a mod n).

(** [int(x)] on a float: truncation toward zero; NaN and the
    infinities raise ([None]). *)
Definition int_of_float (x : float) : option Z :=
  match Prim2SF x with
  | S754_nan | S754_infinity _ => None
  | S754_zero _ => Some 0
  | S754_finite s m e =>
      let a := Z.shiftl (Z.pos m) e in
      Some (if s then - a else a)
  end.

(** [float(z)], as done implicitly by [float - int]: the nearest
    binary64, ties to even; too large an int raises OverflowError
    ([None]). *)
Definition float_of_int (z : Z) : option float :=
  match binary_normalize prec emax z 0 false with
  | S754_infinity _ => None
  | sf => Some (SF2Prim sf)
  end.

(** [sep.join(parts)] *)
Fixpoint join (sep : str) (parts : list str) : str :=
  match parts with
  | [] => []
  | [s] => s
  | s :: rest => s ++ sep ++ join sep rest
  end.

(** [enumerate(l)], counting from [start]. *)
Fixpoint enumerate_from {A} (start : Z) (l : list A) : list (Z * A) :=
  match l with
  | [] => []
  | x :: rest => (start, x) :: enumerate_from (start + 1) rest
  end.

Definition enumerate {A} (l : list A) : list (Z * A) := enumerate_from 0 l.

End Py.

Import Py.

(** ** Glyphs used by the display *)

Definition FULL_STAR : str := [9733%N].    (* U+2605 *)
Definition HALF_STAR : str := [189%N].     (* U+00BD *)
Definition EMPTY_STAR : str := [9734%N].   (* U+2606 *)
Definition ELLIPSIS : str := lit "...".

(** ** rating_stars *)

(** [rating_stars(rating, max_stars=5)]. [None] when [int(rating)] or the
    mixed subtraction raises. *)
Definition rating_stars (rating : float) (max_stars : Z) : option str :=
  match int_of_float rating with
  | None => None
  | Some full_stars =>
      match float_of_int full_stars with
      | None => None
      | Some f =>
          let half_star := PrimFloat.leb 0x1p-1%float (PrimFloat.sub rating f) in
          let empty_stars := max_stars - full_stars - (if half_star then 1 else 0) in
          Some (rep FULL_STAR full_stars
                  ++ (if half_star then HALF_STAR else [])
                  ++ rep EMPTY_STAR empty_stars)
      end
  end.

Definition DEFAULT_MAX_STARS : Z := 5.

(** The binary64 value that the literal [3.7] denotes. *)
Definition rating_3_7 : float := 0x1.d99999999999ap+1%float.

(** ** truncate *)

(** [truncate(text, max_length=50)] *)
Definition truncate (text : str) (max_length : Z) : str :=
  match text with
  | [] => []
  | _ =>
      if len text <=? max_length then text
      else slice_to text (max_length - 3) ++ ELLIPSIS
  end.

(** ** The key decoder *)

Inductive platform := Win32 | Posix.

(** Names of the key events. *)
Definition K_UP : str := lit "up".
Definition K_DOWN : str := lit "down".
Definition K_LEFT : str := lit "left".
Definition K_RIGHT : str := lit "right".
Definition K_ENTER : str := lit "enter".
Definition K_ESCAPE : str := lit "escape".
Definition K_Q : str := lit "q".
Definition K_CTRL_C : str := lit "ctrl+c".
Definition K_SPACE : str := lit " ".

(** Input bytes and characters the decoder compares with. *)
Definition CR : N := 13.
Definition LF : N := 10.
Definition ESC : N := 27.
Definition ETX : N := 3.
Definition WIN_PREFIX : N := 224.          (* b'\xe0' *)
Definition chr (a : ascii) : N := N_of_ascii a.

(** [key.decode('utf-8', errors='ignore')] on a single byte: a byte of
    the ASCII range is its own character, any other lone byte is dropped. *)
Definition decode_byte (b : N) : str :=
  if (b <? 128)%N then [b] else [].

(** The [win32] branch. The input is what successive [msvcrt.getch()]
    calls deliver; [None] when a call finds no byte left (it blocks). *)
Definition _read_key_win32 (inp : list N) : option (str * list N) :=
  match inp with
  | [] => None
  | key :: rest =>
      if (key =? WIN_PREFIX)%N then
        match rest with
        | [] => None
        | key2 :: rest2 =>
            if (key2 =? chr "H")%N then Some (K_UP, rest2)
            else if (key2 =? chr "P")%N then Some (K_DOWN, rest2)
            else if (key2 =? chr "K")%N then Some (K_LEFT, rest2)
            else if (key2 =? chr "M")%N then Some (K_RIGHT, rest2)
            else Some (decode_byte key2, rest2)
        end
      else if (key =? CR)%N then Some (K_ENTER, rest)
      else if (key =? chr "q")%N || (key =? chr "Q")%N then Some (K_Q, rest)
      else Some (decode_byte key, rest)
  end.

(** [sys.stdin.read(1)]: one character, or the empty string at end of
    input. *)
Definition stdin_read1 (inp : list N) : str * list N :=
  match inp with
  | [] => ([], [])
  | c :: rest => ([c], rest)
  end.

(** The branch for every other platform. The terminal settings are saved
    before and restored after the read and do not affect the result. *)
Definition _read_key_posix (inp : list N) : str * list N :=
  let '(ch, inp1) := stdin_read1 inp in
  if bool_decide (ch = [ESC]) then
    let '(ch2, inp2) := stdin_read1 inp1 in
    if bool_decide (ch2 = lit "[") then
      let '(ch3, inp3) := stdin_read1 inp2 in
      if bool_decide (ch3 = lit "A") then (K_UP, inp3)
      else if bool_decide (ch3 = lit "B") then (K_DOWN, inp3)
      else if bool_decide (ch3 = lit "C") then (K_RIGHT, inp3)
      else if bool_decide (ch3 = lit "D") then (K_LEFT, inp3)
      else (K_ESCAPE, inp3)
    else (K_ESCAPE, inp2)
  else if bool_decide (ch = [CR]) || bool_decide (ch = [LF]) then (K_ENTER, inp1)
  else if bool_decide (ch = lit "q") || bool_decide (ch = lit "Q") then (K_Q, inp1)
  else if bool_decide (ch = [ETX]) then (K_CTRL_C, inp1)
  else (ch, inp1).

Definition _read_key (p : platform) (inp : list N) : option (str * list N) :=
  match p with
  | Win32 => _read_key_win32 inp
  | Posix => Some (_read_key_posix inp)
  end.

(** ** The terminal as the event loops see it *)

(** One turn of a loop: what [_read_key()] did, and whether the redraw
    that may follow it went through. *)
Inductive tick :=
| Key (key : str) (redraw_ok : bool)
| ReadError.

(** Every write to the terminal can raise. Besides the redraws of the
    ticks, a call of a screen makes at most one of each of these. *)
Record terminal := {
  isatty : bool;        (* sys.stdin.isatty() *)
  live_ok : bool;       (* entering the Live display and its first refresh *)
  exit_ok : bool;       (* leaving the Live display: it is stopped and
                           refreshed a last time *)
  print_ok : bool;      (* building and printing the plain output with
                           console.print, outside the Live display *)
  ticks : list tick;
}.

(** An attached terminal on which no write fails, that delivers the
    given ticks. *)
Definition tty (ts : list tick) : terminal :=
  {| isatty := true; live_ok := true; exit_ok := true; print_ok := true;
     ticks := ts |}.

(** An attached terminal whose Live display starts, with the given
    fate of leaving it and of the plain print. *)
Definition failing (leave print : bool) (ts : list tick) : terminal :=
  {| isatty := true; live_ok := true; exit_ok := leave; print_ok := print;
     ticks := ts |}.

(** The same terminal with other ticks to deliver. *)
Definition with_ticks (term : terminal) (ts : list tick) : terminal :=
  {| isatty := isatty term; live_ok := live_ok term; exit_ok := exit_ok term;
     print_ok := print_ok term; ticks := ts |}.

Definition is_cancel (key : str) : bool :=
  bool_decide (key = K_Q) || bool_decide (key = K_ESCAPE)
  || bool_decide (key = K_CTRL_C).

(** ** The search-results screen *)

Record Skill := {
  skill_id : str;
  skill_name : str;
  skill_description : option str;
  average_rating : float;
  github_stars : Z;
}.

(** What one turn of the loop of [display_search_results] does. *)
Inductive search_step_result :=
| SContinue (selected_index : Z)
| SReturn (result : option Skill * Z)
| SRaise.

Definition search_step (skills : list Skill) (selected_index : Z) (t : tick)
  : search_step_result :=
  match t with
  | ReadError => SRaise
  | Key key redraw_ok =>
      if bool_decide (key = K_UP) then
        match mod_ (selected_index - 1) (len skills) with
        | None => SRaise
        | Some i => if redraw_ok then SContinue i else SRaise
        end
      else if bool_decide (key = K_DOWN) then
        match mod_ (selected_index + 1) (len skills) with
        | None => SRaise
        | Some i => if redraw_ok then SContinue i else SRaise
        end
      else if bool_decide (key = K_ENTER) then
        match index skills selected_index with
        | None => SRaise
        | Some skill => SReturn (Some skill, selected_index)
        end
      else if is_cancel key then SReturn (None, selected_index)
      else SContinue selected_index
  end.

(** The outcome of the screen on a finite run of ticks: the pair it
    returned, the cursor it holds while it waits for the next key, or
    that an exception left the function. *)
Inductive search_outcome :=
| SearchReturned (result : option Skill * Z)
| SearchWaiting (selected_index : Z)
| SearchRaised.

(** Printing the plain output and returning [(None, 0)]: the static
    table, the notice for an empty list, and the body of the
    [except Exception] handler. None of these prints is guarded, so a
    print that raises leaves the function. *)
Definition search_print_plain (term : terminal) : search_outcome :=
  if print_ok term then SearchReturned (None, 0) else SearchRaised.

(** The [while True] loop inside [with Live(...)] inside [try]. A
    [return] first leaves the Live display; if that raises, the handler
    runs as for any exception of the loop. *)
Fixpoint search_loop (skills : list Skill) (term : terminal)
    (selected_index : Z) (ts : list tick) : search_outcome :=
  match ts with
  | [] => SearchWaiting selected_index
  | t :: ts' =>
      match search_step skills selected_index t with
      | SContinue i => search_loop skills term i ts'
      | SReturn r =>
          if exit_ok term then SearchReturned r else search_print_plain term
      | SRaise => search_print_plain term
      end
  end.

(** The cursor on entry to interactive mode. *)
Definition search_entry_index (skills : list Skill) (initial_index : Z) : Z :=
  Z.min initial_index (len skills - 1).

(** [display_search_results(skills, query, interactive, initial_index)].
    The query only appears in what is printed, which the outcome does not
    record. *)
Definition display_search_results (skills : list Skill) (interactive : bool)
    (initial_index : Z) (term : terminal) : search_outcome :=
  match skills with
  | [] => search_print_plain term
  | _ =>
      if negb interactive || negb (isatty term) then search_print_plain term
      else
        let selected_index := search_entry_index skills initial_index in
        if live_ok term then search_loop skills term selected_index (ticks term)
        else search_print_plain term
  end.

(** ** The agent-selection screen *)

Record Agent := {
  agent_id : str;
  agent_name : str;
  agent_path : str;
}.

(** The local state of [display_agent_selection]. *)
Record agent_state := {
  cursor_index : Z;
  selected : gset str;
}.

Definition ARROW_UP : str := [8593%N].      (* U+2191 *)
Definition ARROW_DOWN : str := [8595%N].    (* U+2193 *)
Definition ARROW_RIGHT : str := [8594%N].   (* U+2192 *)
Definition BULLET : str := [8226%N].        (* U+2022 *)
Definition BOX_FILLED : str := [9632%N].    (* U+25A0 *)
Definition BOX_HOLLOW : str := [9633%N].    (* U+25A1 *)

Definition render_row (st : agent_state) (i : Z) (agent : Agent) : str :=
  let is_selected := bool_decide (agent_id agent ∈ selected st) in
  let is_cursor := i =? cursor_index st in
  let checkbox :=
    if is_selected then lit "[green]" ++ BOX_FILLED ++ lit "[/green]"
    else lit "[dim]" ++ BOX_HOLLOW ++ lit "[/dim]" in
  let cursor_mark := if is_cursor then ARROW_RIGHT ++ lit " " else lit "  " in
  let name_style :=
    if is_cursor then lit "bold reverse"
    else if is_selected then lit "bold"
    else lit "dim" in
  lit "  " ++ cursor_mark ++ checkbox ++ lit " [" ++ name_style ++ lit "]"
    ++ agent_name agent ++ lit "[/" ++ name_style ++ lit "] [dim]("
    ++ agent_path agent ++ lit ")[/dim]".

(** The closure [render()], over the agents and the current state. *)
Definition render (agents : list Agent) (st : agent_state) : str :=
  join [LF]
    (lit "[bold]Select agents to install skills to[/bold]"
     :: (lit "[dim]" ++ ARROW_UP ++ lit "/" ++ ARROW_DOWN ++ lit ": Move "
           ++ BULLET ++ lit " Space: Toggle " ++ BULLET
           ++ lit " Enter: Confirm[/dim]")
     :: List.map (fun '(i, agent) => render_row st i agent) (enumerate agents)).

(** What reaches the terminal. *)
Inductive output :=
| ConsolePrint (s : str)     (* console.print(render()) *)
| LiveStart (s : str)        (* Live(...) and its first refresh *)
| LiveUpdate (s : str).      (* live.update(...); live.refresh() *)

(** The space key: [discard] a member, [add] a non-member. *)
Definition toggle (agent_id : str) (sel : gset str) : gset str :=
  if bool_decide (agent_id ∈ sel) then sel ∖ {[agent_id]}
  else sel ∪ {[agent_id]}.

(** What one turn of the loop does. [ARaise] carries the state at the
    moment the exception is raised. *)
Inductive agent_step_result :=
| AContinue (st : agent_state) (out : list output)
| ABreak
| ACancel
| ARaise (st : agent_state).

Definition redraw (agents : list Agent) (st : agent_state) (redraw_ok : bool)
  : agent_step_result :=
  if redraw_ok then AContinue st [LiveUpdate (render agents st)] else ARaise st.

Definition agent_step (agents : list Agent) (st : agent_state) (t : tick)
  : agent_step_result :=
  match t with
  | ReadError => ARaise st
  | Key key redraw_ok =>
      if bool_decide (key = K_UP) then
        match mod_ (cursor_index st - 1) (len agents) with
        | None => ARaise st
        | Some c =>
            redraw agents {| cursor_index := c; selected := selected st |} redraw_ok
        end
      else if bool_decide (key = K_DOWN) then
        match mod_ (cursor_index st + 1) (len agents) with
        | None => ARaise st
        | Some c =>
            redraw agents {| cursor_index := c; selected := selected st |} redraw_ok
        end
      else if bool_decide (key = K_SPACE) then
        match index agents (cursor_index st) with
        | None => ARaise st
        | Some agent =>
            redraw agents
              {| cursor_index := cursor_index st;
                 selected := toggle (agent_id agent) (selected st) |}
              redraw_ok
        end
      else if bool_decide (key = K_ENTER) then
        if bool_decide (selected st = ∅) then AContinue st [] else ABreak
      else if is_cancel key then ACancel
      else AContinue st []
  end.

(** The outcome of the screen on a finite run of ticks: the list it
    returned, the state it holds while it waits for the next key, or that
    an exception left the function; each with everything written so far. *)
Inductive agent_outcome :=
| AgentReturned (result : list str) (out : list output)
| AgentWaiting (st : agent_state) (out : list output)
| AgentRaised (out : list output).

(** [console.print(render())] followed by [return list(selected)]: the
    static path, and the [except Exception] handler with the return after
    it. The print is not guarded, so when it raises the function raises. *)
Definition agent_print_return (agents : list Agent) (term : terminal)
    (st : agent_state) (out : list output) : agent_outcome :=
  if print_ok term then
    AgentReturned (elements (selected st))
      (out ++ [ConsolePrint (render agents st)])
  else AgentRaised out.

(** The [while True] loop inside [with Live(...)] inside [try]. A
    [break] or a [return] first leaves the Live display; if that raises,
    the handler runs as for any exception of the loop. *)
Fixpoint agent_loop (agents : list Agent) (term : terminal) (st : agent_state)
    (out : list output) (ts : list tick) : agent_outcome :=
  match ts with
  | [] => AgentWaiting st out
  | t :: ts' =>
      match agent_step agents st t with
      | AContinue st' o => agent_loop agents term st' (out ++ o) ts'
      | ABreak =>
          if exit_ok term then AgentReturned (elements (selected st)) out
          else agent_print_return agents term st out
      | ACancel =>
          if exit_ok term then AgentReturned [] out
          else agent_print_return agents term st out
      | ARaise st' => agent_print_return agents term st' out
      end
  end.

(** The state before the first key. [selected_ids = None] is the default
    argument: every agent selected. *)
Definition agent_initial_state (agents : list Agent)
    (selected_ids : option (list str)) : agent_state :=
  let selected_ids :=
    match selected_ids with
    | None => List.map agent_id agents
    | Some ids => ids
    end in
  {| cursor_index := 0; selected := list_to_set selected_ids |}.

(** [display_agent_selection(agents, selected_ids, interactive)] *)
Definition display_agent_selection (agents : list Agent)
    (selected_ids : option (list str)) (interactive : bool) (term : terminal)
  : agent_outcome :=
  let st := agent_initial_state agents selected_ids in
  if negb interactive || negb (isatty term) then
    agent_print_return agents term st []
  else if live_ok term then
    agent_loop agents term st [LiveStart (render agents st)] (ticks term)
  else
    agent_print_return agents term st [].

(** ** Decimal rendering of ints *)

(** [str(z)] *)
Definition str_of_int (z : Z) : str :=
  lit (NilZero.string_of_int (Z.to_int z)).

(** The text of a [str] of one-byte characters. *)
Definition unlit (s : str) : string :=
  string_of_list_ascii (List.map ascii_of_N s).

(** The int that a plain decimal numeral denotes. *)
Definition parse_decimal (s : str) : option Z :=
  option_map Z.of_int (NilZero.int_of_string (unlit s)).

Definition COMMA : N := chr ",".

(** Consecutive groups of three, the last one shorter when the length is
    not a multiple of three. *)
Fixpoint chunk3 {A} (l : list A) : list (list A) :=
  match l with
  | a :: b :: c :: rest => [a; b; c] :: chunk3 rest
  | [] => []
  | short => [short]
  end.

(** The digit groups of the [','] format: threes counted from the
    right, so only the first group can be shorter. *)
Definition group3 (digits : str) : list str :=
  let r := (List.length digits mod 3)%nat in
  (if (r =? 0)%nat then [] else [firstn r digits]) ++ chunk3 (skipn r digits).

(** [f"{z:,}"] on an int. *)
Definition format_commas (z : Z) : str :=
  if z <? 0 then lit "-" ++ join [COMMA] (group3 (str_of_int (- z)))
  else join [COMMA] (group3 (str_of_int z)).

(** ** The cells of a row of [_build_search_table] *)

(** [github_stars_display] *)
Definition github_stars_display (skill : Skill) : str :=
  if 0 <? github_stars skill then format_commas (github_stars skill)
  else lit "-".

(** [truncate(skill.description or "", 70)] *)
Definition description_cell (skill : Skill) : str :=
  truncate (match skill_description skill with
            | Some d => d
            | None => []
            end) 70.

(** [skill.id[:8] + "..."] *)
Definition id_cell (skill : Skill) : str :=
  slice_to (skill_id skill) 8 ++ ELLIPSIS.

(** [row_style]: the row whose position is [selected_index] is shown in
    reverse video. *)
Definition row_style (i selected_index : Z) : option str :=
  if i =? selected_index then Some (lit "reverse") else None.

(** The styles of the rows, in the order [enumerate(skills)] adds them. *)
Definition row_styles (skills : list Skill) (selected_index : Z)
  : list (option str) :=
  List.map (fun '(i, _) => row_style i selected_index) (enumerate skills).

(** The [selected_index] of the table printed outside interactive mode. *)
Definition NO_SELECTION : Z := -1.

(** ** The skill-detail screen: the key loop *)

Definition A_INSTALL : str := lit "install".
Definition A_BACK : str := lit "back".

Inductive detail_step_result :=
| DContinue
| DReturn (action : option str)
| DRaise.

Definition detail_step (has_back : bool) (t : tick) : detail_step_result :=
  match t with
  | ReadError => DRaise
  | Key key _ =>
      if bool_decide (key = lit "i") || bool_decide (key = lit "I") then
        DReturn (Some A_INSTALL)
      else if bool_decide (key = K_LEFT) && has_back then
        DReturn (Some A_BACK)
      else if bool_decide (key = K_Q) || bool_decide (key = lit "Q")
              || bool_decide (key = K_ESCAPE) || bool_decide (key = K_CTRL_C)
      then DReturn None
      else DContinue
  end.

(** What the screen returned, or that it still waits for a key. *)
Inductive detail_outcome :=
| DetailReturned (action : option str)
| DetailWaiting.

(** The [while True] loop; its handler swallows the exception and the
    function falls through to [return None]. *)
Fixpoint detail_loop (has_back : bool) (ts : list tick) : detail_outcome :=
  match ts with
  | [] => DetailWaiting
  | t :: ts' =>
      match detail_step has_back t with
      | DContinue => detail_loop has_back ts'
      | DReturn action => DetailReturned action
      | DRaise => DetailReturned None
      end
  end.

(** The action [display_skill_detail(skill, interactive, has_back)]
    returns. The panel, the tree and the hints are written before the
    loop and are not part of the outcome. *)
Definition display_skill_detail (interactive has_back : bool) (term : terminal)
  : detail_outcome :=
  if interactive && isatty term then detail_loop has_back (ticks term)
  else DetailReturned None.

(** ** The rows of [display_installed_list] *)

Record InstalledSkill := {
  installed_id : str;
  installed_name : str;
  installed_at : str;
  installed_path : str;
}.

(** [s.startswith(prefix)] *)
Definition startswith (prefix s : str) : bool :=
  bool_decide (firstn (List.length prefix) s = prefix).

(** [s.replace(old, new)] for a non-empty [old]: the occurrences are
    found from the left and do not overlap. [skip] characters of a match
    already replaced are still to be passed over. *)
Fixpoint replace_from (old new s : str) (skip : nat) : str :=
  match s with
  | [] => []
  | c :: rest =>
      match skip with
      | S k => replace_from old new rest k
      | O =>
          if startswith old s
          then new ++ replace_from old new rest (List.length old - 1)
          else c :: replace_from old new rest 0
      end
  end.

(** [s.replace(old, new)]; an empty [old] matches before every character
    and at the end. *)
Definition replace (old new s : str) : str :=
  match old with
  | [] => new ++ List.concat (List.map (fun c => c :: new) s)
  | _ => replace_from old new s 0
  end.

(** [date_str] *)
Definition date_str (skill : InstalledSkill) : str :=
  match installed_at skill with
  | [] => lit "Unknown"
  | at_ => slice_to at_ 10
  end.

(** [short_path], with [home] for [str(Path.home())]. *)
Definition short_path (home : str) (skill : InstalledSkill) : str :=
  match installed_path skill with
  | [] => []
  | p => replace home (lit "~") p
  end.

(** [skill.id[:8] + "..." if skill.id else ""] *)
Definition installed_id_cell (skill : InstalledSkill) : str :=
  match installed_id skill with
  | [] => []
  | i => slice_to i 8 ++ ELLIPSIS
  end.

(** The keys each loop reacts to. *)
Definition SEARCH_KEYS : list str :=
  [K_UP; K_DOWN; K_ENTER; K_Q; K_ESCAPE; K_CTRL_C].

Definition AGENT_KEYS : list str := K_SPACE :: SEARCH_KEYS.

Definition detail_keys (has_back : bool) : list str :=
  [lit "i"; lit "I"; K_Q; lit "Q"; K_ESCAPE; K_CTRL_C]
    ++ (if has_back then [K_LEFT] else []).

(** A run of ticks in which every read and every redraw succeeds. *)
Definition clean (ts : list tick) : Prop :=
  Forall (fun t => exists key, t = Key key true) ts.



(** A valid cursor of the agent screen. *)
Definition cursor_ok (agents : list Agent) (st : agent_state) : Prop :=
  0 <= cursor_index st < len agents.

(** ** Vocabulary of the properties *)

(** A valid index into the list of skills. *)
Definition in_range (skills : list Skill) (i : Z) : Prop := 0 <= i < len skills.

(** The index an outcome carries: the one returned, or the cursor the
    loop holds. *)
Definition outcome_index (o : search_outcome) : option Z :=
  match o with
  | SearchReturned (_, i) => Some i
  | SearchWaiting i => Some i
  | SearchRaised => None
  end.

(** The cursor a step leaves the loop with, when the loop goes on. *)
Definition search_cursor_after (r : search_step_result) : option Z :=
  match r with
  | SContinue i => Some i
  | _ => None
  end.

Definition agent_cursor_after (r : agent_step_result) : option Z :=
  match r with
  | AContinue st _ => Some (cursor_index st)
  | _ => None
  end.

(** The ids of the agents shown. *)
Definition agent_ids (agents : list Agent) : gset str :=
  list_to_set (List.map agent_id agents).

(** The caller's initial selection names only agents that are shown
    (the default, [None], always does). *)
Definition names_shown (agents : list Agent)
    (selected_ids : option (list str)) : Prop :=
  match selected_ids with
  | None => True
  | Some ids => Forall (fun x => x ∈ agent_ids agents) ids
  end.

(** The selection a step leaves behind, when it leaves one. *)
Definition selected_after (st : agent_state) (r : agent_step_result)
  : gset str :=
  match r with
  | AContinue st' _ => selected st'
  | ARaise st' => selected st'
  | ABreak | ACancel => selected st
  end.

(** The ids an outcome carries: those returned, or those selected in
    the state the loop holds. *)
Definition outcome_ids (o : agent_outcome) : gset str :=
  match o with
  | AgentReturned result _ => list_to_set result
  | AgentWaiting st _ => selected st
  | AgentRaised _ => ∅
  end.

(** ** Sample data *)

Module Sample.

Definition skill (name : string) : Skill :=
  {| skill_id := lit name; skill_name := lit name;
     skill_description := None; average_rating := rating_3_7;
     github_stars := 0 |}.

Definition skills : list Skill := [skill "pdf"; skill "docx"; skill "xlsx"].

Definition claude : Agent :=
  {| agent_id := lit "claude"; agent_name := lit "Claude Code";
     agent_path := lit "~/.claude/skills" |}.

Definition codex : Agent :=
  {| agent_id := lit "codex"; agent_name := lit "Codex";
     agent_path := lit "~/.codex/skills" |}.

Definition agents : list Agent := [claude; codex].

End Sample.

(** * Properties *)

(** ** Text helpers *)

Section TextHelpers.

Lemma len_app {A} (l1 l2 : list A) : len (l1 ++ l2) = len l1 + len l2.
Proof. unfold len. rewrite List.length_app. lia. Qed.

Lemma len_nonneg {A} (l : list A) : 0 <= len l.
Proof. unfold len. lia. Qed.

Lemma len_ELLIPSIS : len ELLIPSIS = 3.
Proof. reflexivity. Qed.

(** A slice with a stop inside the sequence has exactly that length. *)
Lemma len_slice_to {A} (l : list A) (k : Z) :
  0 <= k <= len l -> len (slice_to l k) = k.
Proof.
  intros [Hk Hl]. unfold slice_to.
  destruct (Z.leb_spec 0 k) as [_|Hneg]; [|lia].
  unfold len in *. rewrite List.firstn_length_le; lia.
Qed.

(** The decimal [3.7] lies within half a unit in the last place of
    [rating_3_7], which is therefore the float the literal denotes. *)
Lemma rating_3_7_nearest :
  Prim2SF rating_3_7 = S754_finite false 8331659310635418 (-51)
  /\ 2 * Z.abs (10 * 8331659310635418 - 37 * 2 ^ 51) < 10.
Proof. split; [vm_compute; reflexivity | vm_compute; reflexivity]. Qed.

End TextHelpers.

(** C8. [rating_stars(3.7)] is a string of five glyphs: three full stars,
    then one half star, then one empty star. *)
Theorem rating_stars_3_7 :
  rating_stars rating_3_7 DEFAULT_MAX_STARS
    = Some (rep FULL_STAR 3 ++ HALF_STAR ++ rep EMPTY_STAR 1)
  /\ len (rep FULL_STAR 3 ++ HALF_STAR ++ rep EMPTY_STAR 1) = 5.
Proof. split; vm_compute; reflexivity. Qed.

(** C9. [truncate("hello world", 8)] has length 8 and its last three
    characters are ["..."]; [truncate("hi", 8)] is ["hi"]. *)
Theorem truncate_examples :
  let r := truncate (lit "hello world") 8 in
  len r = 8
  /\ skipn (List.length r - 3) r = lit "..."
  /\ r = lit "hello..."
  /\ truncate (lit "hi") 8 = lit "hi".
Proof. vm_compute. repeat split; reflexivity. Qed.

(** C10. With [max_length >= 3] the result of [truncate] is never longer
    than [max_length], and for a longer input it is
    [text[:max_length - 3]] followed by the three-character ellipsis.
    Below 3 the bound can fail. *)
Theorem truncate_length_bound :
  (forall (text : str) (max_length : Z),
      3 <= max_length ->
      len (truncate text max_length) <= max_length
      /\ (max_length < len text ->
          truncate text max_length
            = slice_to text (max_length - 3) ++ ELLIPSIS
          /\ len (truncate text max_length) = max_length))
  /\ (exists (text : str) (max_length : Z),
         max_length < 3 /\ max_length < len (truncate text max_length)).
Proof.
  split.
  - intros text max_length Hmax.
    assert (Hlong : max_length < len text ->
              truncate text max_length
                = slice_to text (max_length - 3) ++ ELLIPSIS
              /\ len (truncate text max_length) = max_length).
    { intros Hlt. unfold truncate.
      destruct text as [|c text']; [unfold len in Hlt; simpl in Hlt; lia|].
      destruct (Z.leb_spec (len (c :: text')) max_length) as [Hle|_]; [lia|].
      split; [reflexivity|].
      rewrite len_app, len_ELLIPSIS, len_slice_to; lia. }
    split; [|exact Hlong].
    destruct (Z.le_gt_cases (len text) max_length) as [Hle|Hgt].
    + unfold truncate. destruct text as [|c text']; [unfold len; simpl; lia|].
      destruct (Z.leb_spec (len (c :: text')) max_length); [assumption | lia].
    + destruct Hlong as [_ ->]; lia.
  - exists (lit "hello"), 2. vm_compute. split; reflexivity.
Qed.

Lemma truncate_length_bound_witness :
  len (truncate (lit "hello world") 8) <= 8.
Proof.
  apply (proj1 truncate_length_bound (lit "hello world") 8). lia.
Defined.

(** ** The key decoder *)

(** Both terminators are [enter] on the branch for the other platforms,
    and the carriage return is on [win32]. *)
Lemma read_key_enter_handled (rest : list N) :
  _read_key Posix (CR :: rest) = Some (K_ENTER, rest)
  /\ _read_key Posix (LF :: rest) = Some (K_ENTER, rest)
  /\ _read_key Win32 (CR :: rest) = Some (K_ENTER, rest).
Proof. repeat split; reflexivity. Qed.

(** C3. On the [win32] branch a newline byte is not decoded as [enter]:
    it falls through to the final [decode] and comes back as the
    one-character string holding the newline. *)
Theorem read_key_win32_newline (rest : list N) :
  _read_key Win32 (LF :: rest) = Some ([LF], rest)
  /\ [LF] <> K_ENTER.
Proof. split; [reflexivity | discriminate]. Qed.


(** ** Cursor movement *)

Section Navigation.

Lemma mod_pos (a n : Z) : 0 < n -> mod_ a n = Some (a mod n).
Proof.
  intros Hn. unfold mod_. destruct (Z.eqb_spec n 0); [lia | reflexivity].
Qed.

Lemma len_pos {A} (l : list A) : l <> [] -> 0 < len l.
Proof. destruct l; [congruence | unfold len; simpl; lia]. Qed.

Lemma search_step_up skills c :
  skills <> [] ->
  search_step skills c (Key K_UP true) = SContinue ((c - 1) mod len skills).
Proof.
  intros Hne. change (search_step skills c (Key K_UP true))
    with (match mod_ (c - 1) (len skills) with
          | None => SRaise
          | Some i => SContinue i
          end).
  now rewrite mod_pos by now apply len_pos.
Qed.

Lemma search_step_down skills c :
  skills <> [] ->
  search_step skills c (Key K_DOWN true) = SContinue ((c + 1) mod len skills).
Proof.
  intros Hne. change (search_step skills c (Key K_DOWN true))
    with (match mod_ (c + 1) (len skills) with
          | None => SRaise
          | Some i => SContinue i
          end).
  now rewrite mod_pos by now apply len_pos.
Qed.

Lemma agent_step_up agents st :
  agents <> [] ->
  agent_cursor_after (agent_step agents st (Key K_UP true))
    = Some ((cursor_index st - 1) mod len agents).
Proof.
  intros Hne. change (agent_step agents st (Key K_UP true))
    with (match mod_ (cursor_index st - 1) (len agents) with
          | None => ARaise st
          | Some c =>
              redraw agents {| cursor_index := c; selected := selected st |} true
          end).
  now rewrite mod_pos by now apply len_pos.
Qed.

Lemma agent_step_down agents st :
  agents <> [] ->
  agent_cursor_after (agent_step agents st (Key K_DOWN true))
    = Some ((cursor_index st + 1) mod len agents).
Proof.
  intros Hne. change (agent_step agents st (Key K_DOWN true))
    with (match mod_ (cursor_index st + 1) (len agents) with
          | None => ARaise st
          | Some c =>
              redraw agents {| cursor_index := c; selected := selected st |} true
          end).
  now rewrite mod_pos by now apply len_pos.
Qed.

Lemma wrap_edges (n : Z) :
  0 < n -> (0 - 1) mod n = n - 1 /\ (n - 1 + 1) mod n = 0.
Proof.
  intros Hn. split.
  - replace (0 - 1) with (n - 1 + (-1) * n) by lia.
    rewrite Z.mod_add by lia. apply Z.mod_small. lia.
  - replace (n - 1 + 1) with (0 + 1 * n) by lia.
    rewrite Z.mod_add by lia. reflexivity.
Qed.

End Navigation.

(** C7. On a list of length [N > 0], in both navigable screens, [up]
    moves the cursor to [(c - 1) mod N] and [down] to [(c + 1) mod N];
    both lie in [[0, N)], [up] at 0 gives [N - 1] and [down] at [N - 1]
    gives 0. *)
Theorem navigation_wraps (skills : list Skill) (agents : list Agent)
    (c : Z) (sel : gset str) :
  (skills <> [] ->
   let n := len skills in
   search_cursor_after (search_step skills c (Key K_UP true))
     = Some ((c - 1) mod n)
   /\ search_cursor_after (search_step skills c (Key K_DOWN true))
     = Some ((c + 1) mod n)
   /\ 0 <= (c - 1) mod n < n /\ 0 <= (c + 1) mod n < n
   /\ search_cursor_after (search_step skills 0 (Key K_UP true)) = Some (n - 1)
   /\ search_cursor_after (search_step skills (n - 1) (Key K_DOWN true)) = Some 0)
  /\
  (agents <> [] ->
   let n := len agents in
   let at_ i := {| cursor_index := i; selected := sel |} in
   agent_cursor_after (agent_step agents (at_ c) (Key K_UP true))
     = Some ((c - 1) mod n)
   /\ agent_cursor_after (agent_step agents (at_ c) (Key K_DOWN true))
     = Some ((c + 1) mod n)
   /\ 0 <= (c - 1) mod n < n /\ 0 <= (c + 1) mod n < n
   /\ agent_cursor_after (agent_step agents (at_ 0) (Key K_UP true)) = Some (n - 1)
   /\ agent_cursor_after (agent_step agents (at_ (n - 1)) (Key K_DOWN true)) = Some 0).
Proof.
  split; intros Hne n; pose proof (len_pos _ Hne) as Hn; fold n in Hn;
    destruct (wrap_edges n Hn) as [Hup Hdown].
  - rewrite !search_step_up, !search_step_down by assumption. fold n. simpl.
    rewrite Hup, Hdown.
    repeat split; try reflexivity; apply Z.mod_pos_bound; assumption.
  - intros at_. rewrite !agent_step_up, !agent_step_down by assumption.
    fold n. simpl. rewrite Hup, Hdown.
    repeat split; try reflexivity; apply Z.mod_pos_bound; assumption.
Qed.

Lemma navigation_wraps_witness :
  search_cursor_after (search_step Sample.skills 0 (Key K_UP true)) = Some 2
  /\ agent_cursor_after
       (agent_step Sample.agents {| cursor_index := 1; selected := ∅ |}
          (Key K_DOWN true)) = Some 0.
Proof.
  split.
  - apply (proj1 (navigation_wraps Sample.skills Sample.agents 0 ∅)).
    discriminate.
  - apply (proj2 (navigation_wraps Sample.skills Sample.agents 0 ∅)).
    discriminate.
Defined.

(** ** The search-results screen: the cursor *)

Section SearchCursor.

Variable skills : list Skill.

(** With only an upper clamp, the entry cursor is in range exactly when
    the starting index is not negative. *)
Lemma search_entry_index_range (initial_index : Z) :
  skills <> [] ->
  (in_range skills (search_entry_index skills initial_index) <-> 0 <= initial_index).
Proof.
  intros Hne. pose proof (len_pos _ Hne).
  unfold in_range, search_entry_index. lia.
Qed.

(** One turn keeps a cursor that is in range in range, and hands back
    that same cursor when it returns. *)
Lemma search_step_range (c : Z) (t : tick) :
  in_range skills c ->
  match search_step skills c t with
  | SContinue i => in_range skills i
  | SReturn (_, i) => i = c
  | SRaise => True
  end.
Proof.
  intros Hc. assert (Hn : 0 < len skills) by (unfold in_range in Hc; lia).
  destruct t as [key redraw_ok|]; [|exact I].
  unfold search_step. rewrite !mod_pos by assumption.
  repeat case_bool_decide.
  - destruct redraw_ok; [apply Z.mod_pos_bound; assumption | exact I].
  - destruct redraw_ok; [apply Z.mod_pos_bound; assumption | exact I].
  - destruct (index skills c); [reflexivity | exact I].
  - destruct (is_cancel key); [reflexivity | assumption].
Qed.

Lemma search_print_plain_range (term : terminal) (c i : Z) :
  in_range skills c ->
  outcome_index (search_print_plain term) = Some i -> in_range skills i.
Proof.
  intros Hc. unfold search_print_plain.
  destruct (print_ok term); [|discriminate].
  intros [= <-]. unfold in_range in *. lia.
Qed.

Lemma search_loop_range (term : terminal) (ts : list tick) :
  forall c i,
    in_range skills c ->
    outcome_index (search_loop skills term c ts) = Some i ->
    in_range skills i.
Proof.
  induction ts as [|t ts IH]; intros c i Hc; cbn [search_loop].
  - intros [= <-]. exact Hc.
  - pose proof (search_step_range c t Hc) as Hstep.
    destruct (search_step skills c t) as [c'|[r c']|].
    + apply IH, Hstep.
    + subst c'. destruct (exit_ok term);
        [intros [= <-]; exact Hc | apply (search_print_plain_range term c), Hc].
    + apply (search_print_plain_range term c), Hc.
Qed.

End SearchCursor.

(** C1, as stated, fails at a negative starting index: the entry clamp
    bounds the cursor from above only. With three skills and
    [initial_index = -1] the loop waits with cursor [-1], and [enter]
    returns the last skill with index [-1]. *)
Lemma search_cursor_negative_start :
  display_search_results Sample.skills true (-1) (tty [])
    = SearchWaiting (-1)
  /\ display_search_results Sample.skills true (-1)
       (tty [Key K_ENTER true])
     = SearchReturned (Some (Sample.skill "xlsx"), -1)
  /\ ~ in_range Sample.skills (-1).
Proof.
  repeat split; try reflexivity. unfold in_range. lia.
Qed.

(** C1, amended. For a non-empty skill list and a starting index that is
    not negative, the cursor is in [[0, N)] on entry to interactive mode,
    and whatever keys and failures follow, the cursor the loop holds and
    the index it returns are in [[0, N)]. *)
Theorem search_cursor_in_range (skills : list Skill) (interactive : bool)
    (initial_index : Z) (term : terminal) :
  skills <> [] ->
  0 <= initial_index ->
  in_range skills (search_entry_index skills initial_index)
  /\ (forall i,
        outcome_index
          (display_search_results skills interactive initial_index term)
        = Some i ->
        in_range skills i).
Proof.
  intros Hne Hinit.
  assert (Hentry : in_range skills (search_entry_index skills initial_index))
    by (apply search_entry_index_range; assumption).
  assert (Hzero : in_range skills 0)
    by (pose proof (len_pos _ Hne); unfold in_range; lia).
  split; [assumption|]. intros i.
  unfold display_search_results.
  destruct skills as [|s rest]; [congruence|].
  destruct (negb interactive || negb (isatty term));
    [apply (search_print_plain_range _ term 0), Hzero|].
  destruct (live_ok term);
    [|apply (search_print_plain_range _ term 0), Hzero].
  apply search_loop_range. assumption.
Qed.

Lemma search_cursor_in_range_witness :
  in_range Sample.skills (search_entry_index Sample.skills 7)
  /\ in_range Sample.skills 0.
Proof.
  destruct (search_cursor_in_range Sample.skills true 7
              (tty [Key K_DOWN true; Key K_DOWN true; Key K_UP true]))
    as [Hentry Hrun]; [discriminate | lia |].
  split; [exact Hentry | apply Hrun; reflexivity].
Defined.

(** ** The agent-selection screen *)

Section AgentSelection.

Variable agents : list Agent.

Lemma index_elem_of {A} (l : list A) (i : Z) (x : A) :
  index l i = Some x -> In x l.
Proof.
  unfold index. intros H.
  destruct (0 <=? i); [eapply nth_error_In; eassumption|].
  destruct (- len l <=? i); [eapply nth_error_In; eassumption | discriminate].
Qed.

Lemma index_agent_id (i : Z) (agent : Agent) :
  index agents i = Some agent -> agent_id agent ∈ agent_ids agents.
Proof.
  intros H. apply index_elem_of in H. unfold agent_ids.
  apply elem_of_list_to_set, list_elem_of_In, in_map. assumption.
Qed.

Lemma toggle_subset (x : str) (sel : gset str) :
  x ∈ agent_ids agents -> sel ⊆ agent_ids agents -> toggle x sel ⊆ agent_ids agents.
Proof.
  intros Hx Hsel. unfold toggle. case_bool_decide; intros y Hy.
  - apply elem_of_difference in Hy as [Hy _]. apply Hsel, Hy.
  - apply elem_of_union in Hy as [Hy|Hy]; [apply Hsel, Hy|].
    apply elem_of_singleton in Hy. subst y. exact Hx.
Qed.

Lemma initial_subset (selected_ids : option (list str)) :
  names_shown agents selected_ids ->
  selected (agent_initial_state agents selected_ids) ⊆ agent_ids agents.
Proof.
  destruct selected_ids as [ids|]; simpl; intros Hshown; [|reflexivity].
  intros x Hx. apply elem_of_list_to_set in Hx.
  rewrite Forall_forall in Hshown. apply Hshown. assumption.
Qed.

Lemma agent_step_subset (st : agent_state) (t : tick) :
  selected st ⊆ agent_ids agents ->
  selected_after st (agent_step agents st t) ⊆ agent_ids agents.
Proof.
  intros Hsub. destruct t as [key redraw_ok|]; [|assumption].
  unfold agent_step, redraw. repeat case_bool_decide.
  - destruct (mod_ _ _); [destruct redraw_ok|]; assumption.
  - destruct (mod_ _ _); [destruct redraw_ok|]; assumption.
  - destruct (index agents (cursor_index st)) as [agent|] eqn:Hidx;
      [|assumption].
    destruct redraw_ok; simpl;
      (apply toggle_subset; [eapply index_agent_id; eassumption | assumption]).
  - assumption.
  - assumption.
  - destruct (is_cancel key); assumption.
Qed.

Lemma list_to_set_elements (sel : gset str) :
  list_to_set (elements sel) = sel.
Proof. apply set_eq. intros x. rewrite elem_of_list_to_set, elem_of_elements. reflexivity. Qed.

Lemma agent_print_return_subset (term : terminal) (st : agent_state)
    (out : list output) :
  selected st ⊆ agent_ids agents ->
  outcome_ids (agent_print_return agents term st out) ⊆ agent_ids agents.
Proof.
  intros Hsub. unfold agent_print_return. destruct (print_ok term); simpl.
  - rewrite list_to_set_elements. exact Hsub.
  - apply empty_subseteq.
Qed.

Lemma agent_loop_subset (term : terminal) (ts : list tick) :
  forall st out,
    selected st ⊆ agent_ids agents ->
    outcome_ids (agent_loop agents term st out ts) ⊆ agent_ids agents.
Proof.
  induction ts as [|t ts IH]; intros st out Hsub; cbn [agent_loop];
    [exact Hsub|].
  pose proof (agent_step_subset st t Hsub) as Hstep.
  destruct (agent_step agents st t) as [st' o| | |st']; simpl in Hstep.
  - apply IH. assumption.
  - destruct (exit_ok term); [|apply agent_print_return_subset, Hsub].
    simpl. rewrite list_to_set_elements. assumption.
  - destruct (exit_ok term); [|apply agent_print_return_subset, Hsub].
    apply empty_subseteq.
  - apply agent_print_return_subset, Hstep.
Qed.

(** Running the loop on a run of ticks followed by another. *)
Lemma agent_loop_app (term : terminal) (pre post : list tick) :
  forall st out,
    agent_loop agents term st out (pre ++ post)
    = match agent_loop agents term st out pre with
      | AgentWaiting st' out' => agent_loop agents term st' out' post
      | ended => ended
      end.
Proof.
  induction pre as [|t pre IH]; intros st out; cbn [app agent_loop];
    [reflexivity|].
  destruct (agent_step agents st t) as [st' o| | |st'].
  - apply IH.
  - unfold agent_print_return.
    destruct (exit_ok term), (print_ok term); reflexivity.
  - unfold agent_print_return.
    destruct (exit_ok term), (print_ok term); reflexivity.
  - unfold agent_print_return. destruct (print_ok term); reflexivity.
Qed.

(** Of the terminal the loop reads only whether leaving the Live display
    and the plain print succeed. *)
Lemma agent_loop_with_ticks (term : terminal) (ts' ts : list tick) :
  forall st out,
    agent_loop agents (with_ticks term ts') st out ts
    = agent_loop agents term st out ts.
Proof.
  induction ts as [|t ts IH]; intros st out; cbn [agent_loop]; [reflexivity|].
  destruct (agent_step agents st t); [apply IH|reflexivity..].
Qed.

Lemma agent_step_enter (st : agent_state) (redraw_ok : bool) :
  agent_step agents st (Key K_ENTER redraw_ok)
  = if bool_decide (selected st = ∅) then AContinue st [] else ABreak.
Proof. reflexivity. Qed.

Lemma agent_step_cancel (st : agent_state) (key : str) (redraw_ok : bool) :
  key = K_Q \/ key = K_ESCAPE \/ key = K_CTRL_C ->
  agent_step agents st (Key key redraw_ok) = ACancel.
Proof. intros [->|[->| ->]]; reflexivity. Qed.

(** In interactive mode, on an attached terminal whose Live display
    starts, the screen is the loop run from the initial state. *)
Lemma display_agent_selection_live selected_ids (term : terminal)
    (ts : list tick) :
  isatty term = true ->
  live_ok term = true ->
  display_agent_selection agents selected_ids true (with_ticks term ts)
  = let st := agent_initial_state agents selected_ids in
    agent_loop agents term st [LiveStart (render agents st)] ts.
Proof.
  intros Htty Hlive. unfold display_agent_selection. cbn [isatty live_ok ticks with_ticks].
  rewrite Htty, Hlive. cbn [negb orb]. apply agent_loop_with_ticks.
Qed.

(** Where the screen waits for a key it is in interactive mode on an
    attached terminal whose Live display started. *)
Lemma display_agent_selection_waiting selected_ids (interactive : bool)
    (term : terminal) (st : agent_state) (out : list output) :
  display_agent_selection agents selected_ids interactive term
    = AgentWaiting st out ->
  interactive = true /\ isatty term = true /\ live_ok term = true.
Proof.
  unfold display_agent_selection, agent_print_return.
  destruct interactive, (isatty term), (live_ok term), (print_ok term);
    cbn [negb orb]; try discriminate; auto.
Qed.

(** The ways a turn raises: the read fails; a move on an empty list
    divides by zero; a toggle on an empty list indexes out of range; a
    redraw fails after the state was updated. *)
Lemma agent_step_raise_cases (st : agent_state) :
  agent_step agents st ReadError = ARaise st
  /\ (agents = [] -> forall b,
        agent_step agents st (Key K_UP b) = ARaise st
        /\ agent_step agents st (Key K_DOWN b) = ARaise st)
  /\ (index agents (cursor_index st) = None -> forall b,
        agent_step agents st (Key K_SPACE b) = ARaise st)
  /\ (forall agent, index agents (cursor_index st) = Some agent ->
        agent_step agents st (Key K_SPACE false)
        = ARaise {| cursor_index := cursor_index st;
                    selected := toggle (agent_id agent) (selected st) |}).
Proof.
  split; [reflexivity|]. split; [|split].
  - intros -> b. split; reflexivity.
  - intros Hidx b.
    change (agent_step agents st (Key K_SPACE b))
      with (match index agents (cursor_index st) with
            | None => ARaise st
            | Some agent =>
                redraw agents
                  {| cursor_index := cursor_index st;
                     selected := toggle (agent_id agent) (selected st) |} b
            end).
    rewrite Hidx. reflexivity.
  - intros agent Hidx.
    change (agent_step agents st (Key K_SPACE false))
      with (match index agents (cursor_index st) with
            | None => ARaise st
            | Some agent =>
                redraw agents
                  {| cursor_index := cursor_index st;
                     selected := toggle (agent_id agent) (selected st) |} false
            end).
    rewrite Hidx. reflexivity.
Qed.

(** A raising turn leaves the selection as it was, or with the agent
    under the cursor toggled. *)
Lemma agent_step_raise_selection (st st' : agent_state) (t : tick) :
  agent_step agents st t = ARaise st' ->
  selected st' = selected st
  \/ exists agent,
       index agents (cursor_index st) = Some agent
       /\ selected st' = toggle (agent_id agent) (selected st).
Proof.
  destruct t as [key redraw_ok|]; [|intros [= <-]; left; reflexivity].
  unfold agent_step, redraw. repeat case_bool_decide.
  - destruct (mod_ _ _); [destruct redraw_ok|]; intros [= <-]; left; reflexivity.
  - destruct (mod_ _ _); [destruct redraw_ok|]; intros [= <-]; left; reflexivity.
  - destruct (index agents (cursor_index st)) as [agent|];
      [destruct redraw_ok|]; intros [= <-].
    + right. exists agent. split; reflexivity.
    + left; reflexivity.
  - discriminate.
  - discriminate.
  - destruct (is_cancel key); discriminate.
Qed.

(** What [enter] and a cancel key do to the loop, in full. *)
Lemma agent_loop_enter (term : terminal) (st : agent_state)
    (out : list output) (redraw_ok : bool) (ts : list tick) :
  agent_loop agents term st out (Key K_ENTER redraw_ok :: ts)
  = if bool_decide (selected st = ∅) then agent_loop agents term st out ts
    else if exit_ok term then AgentReturned (elements (selected st)) out
    else agent_print_return agents term st out.
Proof.
  cbn [agent_loop]. rewrite agent_step_enter.
  case_bool_decide; [rewrite app_nil_r|]; reflexivity.
Qed.

Lemma agent_loop_cancel (term : terminal) (st : agent_state)
    (out : list output) (key : str) (redraw_ok : bool) (ts : list tick) :
  key = K_Q \/ key = K_ESCAPE \/ key = K_CTRL_C ->
  agent_loop agents term st out (Key key redraw_ok :: ts)
  = if exit_ok term then AgentReturned [] out
    else agent_print_return agents term st out.
Proof.
  intros Hkey. cbn [agent_loop]. rewrite agent_step_cancel by exact Hkey.
  reflexivity.
Qed.

End AgentSelection.

(** C2, as stated, fails at the initial construction: the selection is
    built from the caller's ids as they are. Shown one agent and given an
    id that is not its id, the screen holds, and returns, that id. *)
Lemma selection_outside_agents :
  let shown := [Sample.claude] in
  let st := agent_initial_state shown (Some [lit "cursor"]) in
  selected st = {[lit "cursor"]}
  /\ (lit "cursor" ∉ agent_ids shown)
  /\ not (selected st ⊆ agent_ids shown)
  /\ exists out,
       display_agent_selection shown (Some [lit "cursor"]) false (tty [])
       = AgentReturned [lit "cursor"] out.
Proof.
  intros shown st.
  assert (Hsel : selected st = {[lit "cursor"]})
    by (subst st shown; simpl; apply set_eq; intros x;
        rewrite elem_of_union, elem_of_singleton, elem_of_empty; tauto).
  assert (Hout : lit "cursor" ∉ agent_ids shown).
  { unfold agent_ids, shown. simpl. intros Hin.
    apply elem_of_union in Hin as [Hin|Hin].
    - apply elem_of_singleton in Hin. discriminate.
    - apply elem_of_empty in Hin. exact Hin. }
  split; [exact Hsel|]. split; [exact Hout|]. split.
  - intros Hsub. apply Hout, Hsub. rewrite Hsel. apply elem_of_singleton.
    reflexivity.
  - eexists. vm_compute. reflexivity.
Qed.

(** C2, amended. When the caller's initial selection names only agents
    that are shown (or is left to the default), the selection is a subset
    of the shown agents' ids initially, after every turn of the loop
    (every space toggle among them), and in what the screen returns. *)
Theorem selection_subset_of_agents (agents : list Agent)
    (selected_ids : option (list str)) (interactive : bool) (term : terminal) :
  names_shown agents selected_ids ->
  selected (agent_initial_state agents selected_ids) ⊆ agent_ids agents
  /\ (forall st t,
        selected st ⊆ agent_ids agents ->
        selected_after st (agent_step agents st t) ⊆ agent_ids agents)
  /\ outcome_ids (display_agent_selection agents selected_ids interactive term)
       ⊆ agent_ids agents.
Proof.
  intros Hshown. pose proof (initial_subset agents selected_ids Hshown) as Hinit.
  split; [exact Hinit|]. split; [apply agent_step_subset|].
  unfold display_agent_selection.
  destruct (negb interactive || negb (isatty term)).
  - apply agent_print_return_subset. exact Hinit.
  - destruct (live_ok term).
    + apply agent_loop_subset. exact Hinit.
    + apply agent_print_return_subset. exact Hinit.
Qed.

Lemma selection_subset_of_agents_witness :
  outcome_ids
    (display_agent_selection Sample.agents (Some [lit "codex"]) true
       (tty [Key K_SPACE true; Key K_DOWN true; Key K_SPACE true;
             Key K_ENTER true]))
    ⊆ agent_ids Sample.agents.
Proof.
  apply (selection_subset_of_agents Sample.agents (Some [lit "codex"]) true).
  simpl. constructor; [|constructor].
  unfold agent_ids. simpl. apply elem_of_union. right.
  apply elem_of_union. left. apply elem_of_singleton. reflexivity.
Defined.

(** C4, as stated, fails when two writes fail in a row: [enter] with
    both agents selected breaks out of the loop, leaving the Live display
    raises, the handler's print raises too, and the exception leaves the
    function, which returns nothing. *)
Lemma agent_enter_double_failure :
  selected (agent_initial_state Sample.agents None) <> ∅
  /\ exists out,
       display_agent_selection Sample.agents None true
         (failing false false [Key K_ENTER true])
       = AgentRaised out.
Proof.
  split.
  - intros Hempty.
    apply (elem_of_empty (C := gset str) (lit "claude")).
    rewrite <- Hempty. simpl. apply elem_of_union. left.
    apply elem_of_singleton. reflexivity.
  - eexists. vm_compute. reflexivity.
Qed.

(** C4, amended. In the loop, [enter] with an empty selection does not
    exit: the loop goes on from the same state with nothing written.
    [enter] with a non-empty selection exits, and, unless both leaving
    the Live display and the handler's print raise, what is returned
    holds exactly the ids of the current selection, each once: with
    nothing more written when the display is left cleanly, after the
    handler's one print otherwise. *)
Theorem agent_enter_confirms (agents : list Agent) (term : terminal)
    (st : agent_state) (out : list output) (redraw_ok : bool)
    (ts : list tick) :
  (selected st = ∅ ->
   agent_loop agents term st out (Key K_ENTER redraw_ok :: ts)
   = agent_loop agents term st out ts)
  /\ (selected st <> ∅ ->
      exit_ok term = true \/ print_ok term = true ->
      exists result out',
        agent_loop agents term st out (Key K_ENTER redraw_ok :: ts)
        = AgentReturned result out'
        /\ (forall x, x ∈ result <-> x ∈ selected st)
        /\ NoDup result
        /\ (exit_ok term = true -> out' = out)
        /\ (exit_ok term = false ->
            out' = out ++ [ConsolePrint (render agents st)])).
Proof.
  split; intros Hsel; rewrite agent_loop_enter.
  - rewrite bool_decide_eq_true_2 by assumption. reflexivity.
  - intros Hok. rewrite bool_decide_eq_false_2 by assumption.
    exists (elements (selected st)). unfold agent_print_return.
    destruct (exit_ok term) eqn:Hexit.
    + exists out. repeat split; try (intros; congruence).
      * apply elem_of_elements.
      * apply elem_of_elements.
      * apply NoDup_elements.
    + destruct Hok as [Hok|Hok]; [discriminate|]. rewrite Hok.
      exists (out ++ [ConsolePrint (render agents st)]).
      repeat split; try (intros; congruence).
      * apply elem_of_elements.
      * apply elem_of_elements.
      * apply NoDup_elements.
Qed.

Lemma agent_enter_confirms_witness :
  let none := {| cursor_index := 0; selected := ∅ |} in
  let some := {| cursor_index := 0; selected := {[lit "codex"]} |} in
  agent_loop Sample.agents (tty []) none [] [Key K_ENTER true]
  = AgentWaiting none []
  /\ exists result out',
       agent_loop Sample.agents (failing false true []) some []
         [Key K_ENTER true]
       = AgentReturned result out'
       /\ (forall x, x ∈ result <-> x ∈ selected some)
       /\ NoDup result
       /\ (exit_ok (failing false true []) = true -> out' = [])
       /\ (exit_ok (failing false true []) = false ->
           out' = [] ++ [ConsolePrint (render Sample.agents some)]).
Proof.
  intros none some. split.
  - apply (proj1 (agent_enter_confirms Sample.agents (tty []) none []
                    true [])).
    reflexivity.
  - apply (proj2 (agent_enter_confirms Sample.agents (failing false true [])
                    some [] true [])).
    + simpl. intros Hempty.
      apply (elem_of_empty (C := gset str) (lit "codex")).
      rewrite <- Hempty. apply elem_of_singleton. reflexivity.
    + right. reflexivity.
Defined.

(** C5, as stated, fails when leaving the Live display raises: the
    [return []] of the cancel key is inside [with Live(...)] inside
    [try], so the handler runs, prints, and the function returns the
    current selection, here both agents, not the empty list. *)
Lemma agent_cancel_exit_failure :
  exists result out,
    display_agent_selection Sample.agents None true
      (failing false true [Key K_Q true])
    = AgentReturned result out
    /\ result <> []
    /\ (forall x, x ∈ result <-> x ∈ agent_ids Sample.agents).
Proof.
  eexists. eexists. split; [vm_compute; reflexivity|].
  split; [discriminate|].
  intros x. unfold agent_ids. simpl.
  rewrite !elem_of_cons, elem_of_nil, !elem_of_union, !elem_of_singleton,
    elem_of_empty.
  tauto.
Qed.

(** C5, amended. Whatever the agents and whatever is selected, a cancel
    key ([q], [escape] or [ctrl+c]) read by the loop makes the screen
    return the empty list, provided that leaving the Live display does
    not raise: in any state of the loop, and so after any run of keys
    that left the screen waiting. *)
Theorem agent_cancel_returns_empty (agents : list Agent) (term : terminal)
    (key : str) (redraw_ok : bool) :
  key = K_Q \/ key = K_ESCAPE \/ key = K_CTRL_C ->
  exit_ok term = true ->
  (forall st out ts,
      agent_loop agents term st out (Key key redraw_ok :: ts)
      = AgentReturned [] out)
  /\ (forall selected_ids pre post st out,
        display_agent_selection agents selected_ids true (with_ticks term pre)
        = AgentWaiting st out ->
        display_agent_selection agents selected_ids true
          (with_ticks term (pre ++ Key key redraw_ok :: post))
        = AgentReturned [] out).
Proof.
  intros Hkey Hexit.
  assert (Hloop : forall st out ts,
             agent_loop agents term st out (Key key redraw_ok :: ts)
             = AgentReturned [] out).
  { intros st out ts. rewrite agent_loop_cancel by exact Hkey.
    rewrite Hexit. reflexivity. }
  split; [exact Hloop|].
  intros selected_ids pre post st out Hwait.
  destruct (display_agent_selection_waiting _ _ _ _ _ _ Hwait)
    as (_ & Htty & Hlive).
  cbn [isatty live_ok with_ticks] in Htty, Hlive.
  rewrite display_agent_selection_live in * by assumption.
  cbv zeta in *. rewrite agent_loop_app, Hwait. apply Hloop.
Qed.

Lemma agent_cancel_returns_empty_witness :
  exists out,
    display_agent_selection Sample.agents None true
      (with_ticks (tty [])
         ([Key K_DOWN true; Key K_SPACE true] ++ [Key K_ESCAPE true]))
    = AgentReturned [] out.
Proof.
  eexists.
  eapply (proj2 (agent_cancel_returns_empty Sample.agents (tty []) K_ESCAPE
                   true (or_intror (or_introl eq_refl)) eq_refl)
            None [Key K_DOWN true; Key K_SPACE true] []).
  vm_compute. reflexivity.
Defined.

(** C6, as stated, fails when the handler's own print raises: the
    [console.print(render())] of the handler is not guarded, so after a
    failed read the exception of the print leaves the function, which
    returns nothing. *)
Lemma agent_exception_print_failure :
  exists out,
    display_agent_selection Sample.agents None true
      (failing true false [ReadError])
    = AgentRaised out.
Proof. eexists. vm_compute. reflexivity. Qed.

(** C6, amended. When a turn of the loop raises, and the handler's print
    does not raise in turn, the screen prints one static render of the
    state at that moment and returns the ids selected at that moment:
    the selection before the turn, or that selection with the agent
    under the cursor toggled when it is the redraw after a toggle that
    failed. The result is not the empty list of the cancel path. *)
Theorem agent_exception_fallback (agents : list Agent) (term : terminal)
    (st st' : agent_state) (out : list output) (t : tick) (ts : list tick) :
  agent_step agents st t = ARaise st' ->
  print_ok term = true ->
  (exists result,
      agent_loop agents term st out (t :: ts)
      = AgentReturned result (out ++ [ConsolePrint (render agents st')])
      /\ (forall x, x ∈ result <-> x ∈ selected st')
      /\ (selected st' <> ∅ -> result <> []))
  /\ (selected st' = selected st
      \/ exists agent,
           index agents (cursor_index st) = Some agent
           /\ selected st' = toggle (agent_id agent) (selected st)).
Proof.
  intros Hraise Hprint. split; [|eapply agent_step_raise_selection; eassumption].
  exists (elements (selected st')). cbn [agent_loop]. rewrite Hraise.
  unfold agent_print_return. rewrite Hprint.
  split; [reflexivity|]. split.
  - intros x. apply elem_of_elements.
  - intros Hne Hnil. apply Hne. apply set_eq. intros x.
    rewrite <- elem_of_elements, Hnil, elem_of_nil, elem_of_empty. reflexivity.
Qed.

Lemma agent_exception_fallback_witness :
  let st := {| cursor_index := 1; selected := {[lit "claude"]} |} in
  exists result,
    agent_loop Sample.agents (tty []) st [] [ReadError]
    = AgentReturned result ([] ++ [ConsolePrint (render Sample.agents st)])
    /\ (forall x, x ∈ result <-> x ∈ selected st)
    /\ (selected st <> ∅ -> result <> []).
Proof.
  intros st.
  apply (proj1 (agent_exception_fallback Sample.agents (tty []) st st []
                  ReadError [] eq_refl eq_refl)).
Defined.

(** * Further properties *)

(** ** The key decoder: vocabulary and consumption *)

Section KeyDecoder.

Lemma len_le_1_not_named (key : str) :
  len key <= 1 -> key <> K_ESCAPE /\ key <> K_CTRL_C.
Proof.
  intros Hlen. split; intros ->; vm_compute in Hlen; apply Hlen; reflexivity.
Qed.

Lemma len_decode_byte (b : N) : len (decode_byte b) <= 1.
Proof. unfold decode_byte. destruct (b <? 128)%N; unfold len; simpl; lia. Qed.

Lemma read_key_win32_cases (inp : list N) (key : str) (rest : list N) :
  _read_key_win32 inp = Some (key, rest) ->
  In key [K_UP; K_DOWN; K_LEFT; K_RIGHT; K_ENTER; K_Q] \/ len key <= 1.
Proof.
  unfold _read_key_win32. destruct inp as [|b1 inp1]; [discriminate|].
  destruct (b1 =? WIN_PREFIX)%N.
  - destruct inp1 as [|b2 inp2]; [discriminate|].
    repeat match goal with
           | |- context [if ?c then _ else _] => destruct c
           end; intros [= <- <-]; simpl; auto 10 using len_decode_byte.
  - repeat match goal with
           | |- context [if ?c then _ else _] => destruct c
           end; intros [= <- <-]; simpl; auto 10 using len_decode_byte.
Qed.

Lemma is_cancel_spec (key : str) :
  is_cancel key = true <-> key = K_Q \/ key = K_ESCAPE \/ key = K_CTRL_C.
Proof.
  unfold is_cancel. rewrite !orb_true_iff, !bool_decide_eq_true. tauto.
Qed.

End KeyDecoder.

(** X1. On [win32] the decoder yields an arrow name, [enter], [q], or a
    string of at most one character; it never yields [escape] or
    [ctrl+c], so [q] is the only cancel key it can deliver. *)
Theorem read_key_win32_cancel_only_q (inp : list N) (key : str) (rest : list N) :
  _read_key Win32 inp = Some (key, rest) ->
  (In key [K_UP; K_DOWN; K_LEFT; K_RIGHT; K_ENTER; K_Q] \/ len key <= 1)
  /\ key <> K_ESCAPE /\ key <> K_CTRL_C
  /\ (is_cancel key = true -> key = K_Q).
Proof.
  intros Hread. apply read_key_win32_cases in Hread as Hcases.
  assert (Hnot : key <> K_ESCAPE /\ key <> K_CTRL_C).
  { destruct Hcases as [Hin|Hlen]; [|apply len_le_1_not_named, Hlen].
    simpl in Hin.
    repeat (destruct Hin as [<-|Hin]; [split; discriminate|]).
    destruct Hin. }
  split; [exact Hcases|]. split; [apply Hnot|]. split; [apply Hnot|].
  intros Hcancel. apply is_cancel_spec in Hcancel.
  destruct Hnot as [Hesc Hctrl]. destruct Hcancel as [H|[H|H]]; congruence.
Qed.

Lemma read_key_win32_cancel_only_q_witness :
  (In (lit "q") [K_UP; K_DOWN; K_LEFT; K_RIGHT; K_ENTER; K_Q]
   \/ len (lit "q") <= 1)
  /\ lit "q" <> K_ESCAPE /\ lit "q" <> K_CTRL_C
  /\ (is_cancel (lit "q") = true -> lit "q" = K_Q).
Proof.
  apply (read_key_win32_cancel_only_q [chr "Q"; chr "x"] (lit "q") [chr "x"]).
  reflexivity.
Defined.

(** X2. On [win32] the escape byte and the interrupt byte come back as
    one-character strings, which none of the three loops reacts to: the
    search loop keeps its cursor, the agent loop its state, and the
    detail loop goes on waiting. *)
Theorem win32_escape_is_ignored (b : N) (rest : list N) :
  b = ESC \/ b = ETX ->
  _read_key Win32 (b :: rest) = Some ([b], rest)
  /\ (forall skills c ok, search_step skills c (Key [b] ok) = SContinue c)
  /\ (forall agents st ok, agent_step agents st (Key [b] ok) = AContinue st [])
  /\ (forall has_back ok, detail_step has_back (Key [b] ok) = DContinue).
Proof.
  intros [-> | ->]; repeat split; intros; reflexivity.
Qed.

Lemma win32_escape_is_ignored_witness :
  _read_key Win32 [ESC; chr "q"] = Some ([ESC], [chr "q"])
  /\ search_loop Sample.skills (tty []) 1 [Key [ESC] true] = SearchWaiting 1.
Proof.
  destruct (win32_escape_is_ignored ESC [chr "q"] (or_introl eq_refl))
    as (Hread & Hsearch & _).
  split; [exact Hread|]. cbn [search_loop]. rewrite Hsearch. reflexivity.
Defined.

(** X3. On the other platforms the decoder yields one of the eight event
    names, or else the character it read, unchanged (the empty string at
    end of input). *)
Theorem read_key_posix_vocabulary (inp : list N) :
  let key := fst (_read_key_posix inp) in
  In key [K_UP; K_DOWN; K_LEFT; K_RIGHT; K_ESCAPE; K_ENTER; K_Q; K_CTRL_C]
  \/ (key = firstn 1 inp /\ is_cancel key = false /\ key <> K_ENTER).
Proof.
  unfold _read_key_posix, stdin_read1.
  destruct inp as [|c1 inp1];
    [right; repeat split; try reflexivity; discriminate|].
  destruct (bool_decide ([c1] = [ESC])) eqn:Hesc.
  - left. destruct inp1 as [|c2 inp2]; [simpl; auto 10|].
    destruct (bool_decide ([c2] = lit "[")); [|simpl; auto 10].
    destruct inp2 as [|c3 inp3]; [simpl; auto 10|].
    repeat match goal with
           | |- context [if ?c then _ else _] => destruct c
           end; simpl; auto 10.
  - destruct (bool_decide ([c1] = [CR]) || bool_decide ([c1] = [LF]));
      [simpl; auto 10|].
    destruct (bool_decide ([c1] = lit "q") || bool_decide ([c1] = lit "Q"))
      eqn:Hq; [simpl; auto 10|].
    destruct (bool_decide ([c1] = [ETX])); [simpl; auto 10|].
    right. apply orb_false_iff in Hq as [Hq _].
    apply bool_decide_eq_false in Hq.
    split; [reflexivity|]. split; [|discriminate].
    unfold is_cancel. rewrite !orb_false_iff, !bool_decide_eq_false.
    repeat split; [exact Hq | discriminate | discriminate].
Qed.

(** X4. A read takes a prefix of the input and leaves the rest as it is:
    one to three characters of a non-empty input, at most two bytes on
    [win32]. *)
Theorem read_key_consumes_prefix (p : platform) (inp : list N) (key : str)
    (rest : list N) :
  _read_key p inp = Some (key, rest) ->
  exists used,
    inp = used ++ rest
    /\ (List.length used <= 3)%nat
    /\ (inp <> [] -> (1 <= List.length used)%nat)
    /\ (p = Win32 -> (List.length used <= 2)%nat).
Proof.
  destruct p; simpl.
  - unfold _read_key_win32. destruct inp as [|b1 inp1]; [discriminate|].
    destruct (b1 =? WIN_PREFIX)%N.
    + destruct inp1 as [|b2 inp2]; [discriminate|].
      repeat match goal with
             | |- context [if ?c then _ else _] => destruct c
             end; intros [= <- <-]; exists [b1; b2];
        repeat split; simpl; lia.
    + repeat match goal with
             | |- context [if ?c then _ else _] => destruct c
             end; intros [= <- <-]; exists [b1]; repeat split; simpl; lia.
  - unfold _read_key_posix, stdin_read1.
    destruct inp as [|c1 inp1];
      [intros [= <- <-]; exists []; repeat split; simpl; try lia; congruence|].
    destruct (bool_decide ([c1] = [ESC])).
    + destruct inp1 as [|c2 inp2];
        [intros [= <- <-]; exists [c1]; repeat split; simpl; try lia;
         discriminate|].
      destruct (bool_decide ([c2] = lit "["));
        [|intros [= <- <-]; exists [c1; c2]; repeat split; simpl; try lia;
          discriminate].
      destruct inp2 as [|c3 inp3];
        [intros [= <- <-]; exists [c1; c2]; repeat split; simpl; try lia;
         discriminate|].
      repeat match goal with
             | |- context [if ?c then _ else _] => destruct c
             end; intros [= <- <-]; exists [c1; c2; c3];
        repeat split; simpl; try lia; discriminate.
    + repeat match goal with
             | |- context [if ?c then _ else _] => destruct c
             end; intros [= <- <-]; exists [c1];
        repeat split; simpl; try lia; discriminate.
Qed.

Lemma read_key_consumes_prefix_witness :
  exists used,
    [ESC; chr "["; chr "A"; chr "q"] = used ++ [chr "q"]
    /\ (List.length used <= 3)%nat
    /\ ([ESC; chr "["; chr "A"; chr "q"] <> [] -> (1 <= List.length used)%nat)
    /\ (Posix = Win32 -> (List.length used <= 2)%nat).
Proof.
  apply (read_key_consumes_prefix Posix [ESC; chr "["; chr "A"; chr "q"] K_UP).
  reflexivity.
Defined.

(** X5. After an escape character the decoder always takes the next
    character too, and a third one after ["["]: when they do not spell an
    arrow key the result is [escape] and those characters are gone. *)
Theorem read_key_posix_escape_swallows (c : N) (rest : list N) :
  c <> chr "[" ->
  _read_key_posix (ESC :: c :: rest) = (K_ESCAPE, rest)
  /\ (~ In c [chr "A"; chr "B"; chr "C"; chr "D"] ->
      _read_key_posix (ESC :: chr "[" :: c :: rest) = (K_ESCAPE, rest)).
Proof.
  intros Hc. split.
  - unfold _read_key_posix, stdin_read1.
    rewrite bool_decide_eq_true_2 by reflexivity.
    rewrite bool_decide_eq_false_2; [reflexivity|].
    intros [= ->]. apply Hc. reflexivity.
  - intros Hnot. unfold _read_key_posix, stdin_read1.
    rewrite bool_decide_eq_true_2 by reflexivity.
    rewrite bool_decide_eq_true_2 by reflexivity.
    rewrite !bool_decide_eq_false_2; [reflexivity|..];
      intros [= ->]; apply Hnot; simpl; auto.
Qed.

Lemma read_key_posix_escape_swallows_witness :
  _read_key_posix [ESC; chr "q"; chr "i"] = (K_ESCAPE, [chr "i"]).
Proof.
  refine (proj1 (read_key_posix_escape_swallows (chr "q") [chr "i"] _)).
  discriminate.
Defined.

(** ** The search-results screen: what is returned *)

Section SearchLoop.

Variable skills : list Skill.
Variable term : terminal.

Lemma search_loop_app (pre post : list tick) :
  forall c,
    search_loop skills term c (pre ++ post)
    = match search_loop skills term c pre with
      | SearchWaiting c' => search_loop skills term c' post
      | returned => returned
      end.
Proof.
  induction pre as [|t pre IH]; intros c; cbn [app search_loop];
    [reflexivity|].
  unfold search_print_plain.
  destruct (search_step skills c t); [apply IH|..];
    destruct (exit_ok term), (print_ok term); reflexivity.
Qed.

(** Of the terminal the loop reads only whether leaving the Live display
    and the plain print succeed. *)
Lemma search_loop_with_ticks (ts' ts : list tick) :
  forall c,
    search_loop skills (with_ticks term ts') c ts = search_loop skills term c ts.
Proof.
  induction ts as [|t ts IH]; intros c; cbn [search_loop]; [reflexivity|].
  destruct (search_step skills c t); [apply IH|reflexivity..].
Qed.

(** In interactive mode, on an attached terminal whose Live display
    starts, the screen is the loop run from the entry cursor. *)
Lemma display_search_results_live (initial_index : Z) (ts : list tick) :
  skills <> [] ->
  isatty term = true ->
  live_ok term = true ->
  display_search_results skills true initial_index (with_ticks term ts)
  = search_loop skills term (search_entry_index skills initial_index) ts.
Proof.
  intros Hne Htty Hlive. unfold display_search_results.
  destruct skills as [|s0 rest] eqn:Hskills; [congruence|].
  rewrite <- Hskills. cbn [isatty live_ok ticks with_ticks].
  rewrite Htty, Hlive. cbn [negb orb]. apply search_loop_with_ticks.
Qed.

(** Where the screen waits for a key, the list is not empty and the
    screen is in interactive mode on an attached terminal whose Live
    display started. *)
Lemma display_search_results_waiting (interactive : bool) (initial_index c : Z) :
  display_search_results skills interactive initial_index term
    = SearchWaiting c ->
  skills <> [] /\ interactive = true /\ isatty term = true
  /\ live_ok term = true.
Proof.
  unfold display_search_results, search_print_plain.
  destruct skills as [|s0 rest];
    [destruct (print_ok term); discriminate|].
  destruct interactive, (isatty term), (live_ok term), (print_ok term);
    cbn [negb orb]; try discriminate; intros _; repeat split; discriminate.
Qed.

Lemma search_step_returns_indexed (c : Z) (t : tick) (s : Skill) (i : Z) :
  search_step skills c t = SReturn (Some s, i) ->
  i = c /\ index skills c = Some s.
Proof.
  destruct t as [key ok|]; [|discriminate]. unfold search_step.
  repeat case_bool_decide.
  - destruct (mod_ _ _); [destruct ok|]; discriminate.
  - destruct (mod_ _ _); [destruct ok|]; discriminate.
  - destruct (index skills c) as [s'|]; [|discriminate].
    intros [= <- <-]. split; reflexivity.
  - destruct (is_cancel key); discriminate.
Qed.

Lemma search_loop_returns_indexed (ts : list tick) :
  forall c s i,
    search_loop skills term c ts = SearchReturned (Some s, i) ->
    index skills i = Some s.
Proof.
  induction ts as [|t ts IH]; intros c s i; cbn [search_loop];
    [discriminate|].
  unfold search_print_plain.
  destruct (search_step skills c t) as [c'|r|] eqn:Hstep.
  - apply IH.
  - destruct (exit_ok term); [|destruct (print_ok term); discriminate].
    intros [= ->]. apply search_step_returns_indexed in Hstep as [-> Hidx].
    exact Hidx.
  - destruct (print_ok term); discriminate.
Qed.

Lemma search_step_other_key (c : Z) (key : str) (ok : bool) :
  ~ In key SEARCH_KEYS -> search_step skills c (Key key ok) = SContinue c.
Proof.
  intros Hnot. unfold search_step, is_cancel.
  rewrite !bool_decide_eq_false_2; [reflexivity|..];
    intros ->; apply Hnot; simpl; auto 10.
Qed.

Lemma search_step_cancel (c : Z) (key : str) (ok : bool) :
  is_cancel key = true ->
  search_step skills c (Key key ok) = SReturn (None, c).
Proof.
  intros Hcancel. apply is_cancel_spec in Hcancel.
  destruct Hcancel as [->|[->| ->]]; reflexivity.
Qed.

Lemma search_downs (k : nat) (ts : list tick) :
  forall c,
    in_range skills c ->
    search_loop skills term c (List.repeat (Key K_DOWN true) k ++ ts)
    = search_loop skills term ((c + Z.of_nat k) mod len skills) ts.
Proof.
  induction k as [|k IH]; intros c Hc.
  - simpl. rewrite Z.add_0_r, Z.mod_small by exact Hc. reflexivity.
  - assert (Hn : 0 < len skills) by (unfold in_range in Hc; lia).
    assert (Hne : skills <> [])
      by (intros ->; unfold len in Hn; simpl in Hn; lia).
    cbn [List.repeat app search_loop]. rewrite search_step_down by exact Hne.
    rewrite IH by (apply Z.mod_pos_bound; exact Hn).
    rewrite Zplus_mod_idemp_l. f_equal. f_equal. lia.
Qed.

Lemma search_ups (j : nat) (ts : list tick) :
  forall c,
    in_range skills c ->
    search_loop skills term c (List.repeat (Key K_UP true) j ++ ts)
    = search_loop skills term ((c - Z.of_nat j) mod len skills) ts.
Proof.
  induction j as [|j IH]; intros c Hc.
  - simpl. rewrite Z.sub_0_r, Z.mod_small by exact Hc. reflexivity.
  - assert (Hn : 0 < len skills) by (unfold in_range in Hc; lia).
    assert (Hne : skills <> [])
      by (intros ->; unfold len in Hn; simpl in Hn; lia).
    cbn [List.repeat app search_loop]. rewrite search_step_up by exact Hne.
    rewrite IH by (apply Z.mod_pos_bound; exact Hn).
    rewrite Zminus_mod_idemp_l. f_equal. f_equal. lia.
Qed.

End SearchLoop.

(** X6. Whenever the search screen returns a skill, it is the element of
    the list at the index returned with it (read as Python indexes, so
    also for a cursor that started negative), hence a skill of the list. *)
Theorem search_returns_skill_at_index (skills : list Skill) (interactive : bool)
    (initial_index : Z) (term : terminal) (s : Skill) (i : Z) :
  display_search_results skills interactive initial_index term
    = SearchReturned (Some s, i) ->
  index skills i = Some s /\ In s skills.
Proof.
  intros Hret.
  assert (Hidx : index skills i = Some s).
  { unfold display_search_results, search_print_plain in Hret.
    destruct skills as [|s0 rest];
      [destruct (print_ok term); discriminate|].
    destruct (negb interactive || negb (isatty term));
      [destruct (print_ok term); discriminate|].
    destruct (live_ok term); [|destruct (print_ok term); discriminate].
    eapply search_loop_returns_indexed. exact Hret. }
  split; [exact Hidx | eapply index_elem_of; exact Hidx].
Qed.

Lemma search_returns_skill_at_index_witness :
  index Sample.skills 1 = Some (Sample.skill "docx")
  /\ In (Sample.skill "docx") Sample.skills.
Proof.
  apply (search_returns_skill_at_index Sample.skills true 0
           (tty [Key K_DOWN true; Key K_ENTER true])).
  reflexivity.
Defined.

(** X7. The search loop reacts to six keys only. A tick with any other
    key can be dropped from anywhere in the input without changing what
    the screen does. *)
Theorem search_ignores_other_keys (skills : list Skill) (term : terminal)
    (c : Z) (key : str) (ok : bool) (pre post : list tick) :
  ~ In key SEARCH_KEYS ->
  search_loop skills term c (pre ++ Key key ok :: post)
  = search_loop skills term c (pre ++ post).
Proof.
  intros Hnot. rewrite !search_loop_app.
  destruct (search_loop skills term c pre) as [r|c'|]; [reflexivity| |reflexivity].
  cbn [search_loop]. rewrite search_step_other_key by exact Hnot. reflexivity.
Qed.

Lemma search_ignores_other_keys_witness :
  search_loop Sample.skills (tty []) 0
    ([Key K_DOWN true] ++ Key K_LEFT true :: [Key K_ENTER true])
  = search_loop Sample.skills (tty []) 0
      ([Key K_DOWN true] ++ [Key K_ENTER true]).
Proof.
  apply (search_ignores_other_keys Sample.skills (tty []) 0 K_LEFT true).
  unfold SEARCH_KEYS. simpl. intros H.
  repeat (destruct H as [H|H]; [discriminate|]). exact H.
Defined.

(** X8. From a cursor in range, [k] presses of [down] followed by [j]
    presses of [up] leave the cursor at [(c + k - j) mod N]. So equally
    many of each, or [N] presses of [down] alone, bring it back to where
    it was. *)
Theorem search_moves_compose (skills : list Skill) (term : terminal) (c : Z)
    (k j : nat) (ts : list tick) :
  in_range skills c ->
  search_loop skills term c
    (List.repeat (Key K_DOWN true) k ++ List.repeat (Key K_UP true) j ++ ts)
  = search_loop skills term ((c + Z.of_nat k - Z.of_nat j) mod len skills) ts
  /\ (k = j \/ (Z.of_nat k = len skills /\ j = 0%nat) ->
      (c + Z.of_nat k - Z.of_nat j) mod len skills = c).
Proof.
  intros Hc. assert (Hn : 0 < len skills) by (unfold in_range in Hc; lia).
  split.
  - rewrite search_downs by exact Hc.
    rewrite search_ups by (apply Z.mod_pos_bound; exact Hn).
    rewrite Zminus_mod_idemp_l. reflexivity.
  - intros [->|[Hk ->]].
    + replace (c + Z.of_nat j - Z.of_nat j) with c by lia.
      apply Z.mod_small, Hc.
    + rewrite Hk. replace (c + len skills - Z.of_nat 0)
        with (c + 1 * len skills) by lia.
      rewrite Z.mod_add by lia. apply Z.mod_small, Hc.
Qed.

Lemma search_moves_compose_witness :
  search_loop Sample.skills (tty []) 2
    (List.repeat (Key K_DOWN true) 3 ++ List.repeat (Key K_UP true) 0
       ++ [Key K_ENTER true])
  = search_loop Sample.skills (tty [])
      ((2 + Z.of_nat 3 - Z.of_nat 0) mod len Sample.skills)
      [Key K_ENTER true].
Proof.
  refine (proj1 (search_moves_compose Sample.skills (tty []) 2 3 0
                   [Key K_ENTER true] _)).
  unfold in_range. vm_compute. split; [discriminate | reflexivity].
Defined.

(** X9. Where the screen waits with cursor [c], after a start that was
    not negative: a cancel key returns [(None, c)] when the Live display
    is left without an exception, and entering the screen again with
    that index starts on the same row. When leaving the display raises,
    or when the read fails instead, the handler takes over: it returns
    [(None, 0)], so the position is lost, or raises if its print fails. *)
Theorem search_cancel_resumes (skills : list Skill) (initial_index : Z)
    (term : terminal) (pre : list tick) (key : str) (ok : bool) (c : Z) :
  0 <= initial_index ->
  is_cancel key = true ->
  display_search_results skills true initial_index (with_ticks term pre)
    = SearchWaiting c ->
  display_search_results skills true initial_index
      (with_ticks term (pre ++ [Key key ok]))
    = (if exit_ok term then SearchReturned (None, c)
       else if print_ok term then SearchReturned (None, 0)
       else SearchRaised)
  /\ display_search_results skills true c (with_ticks term [])
     = SearchWaiting c
  /\ display_search_results skills true initial_index
       (with_ticks term (pre ++ [ReadError]))
     = (if print_ok term then SearchReturned (None, 0) else SearchRaised).
Proof.
  intros Hinit Hcancel Hwait.
  destruct (display_search_results_waiting _ _ _ _ _ Hwait)
    as (Hne & _ & Htty & Hlive).
  cbn [isatty live_ok with_ticks] in Htty, Hlive.
  rewrite display_search_results_live in * by assumption.
  assert (Hc : in_range skills c).
  { apply (search_loop_range skills term pre
             (search_entry_index skills initial_index));
      [apply search_entry_index_range; assumption|].
    rewrite Hwait. reflexivity. }
  rewrite !search_loop_app, Hwait. cbn [search_loop].
  rewrite search_step_cancel by exact Hcancel.
  unfold search_print_plain.
  split; [reflexivity | split].
  - rewrite display_search_results_live by assumption. cbn [search_loop].
    unfold search_entry_index, in_range in *. f_equal. lia.
  - rewrite display_search_results_live by assumption.
    rewrite search_loop_app, Hwait. reflexivity.
Qed.

Lemma search_cancel_resumes_witness :
  display_search_results Sample.skills true 0
    (with_ticks (failing false true [])
       ([Key K_DOWN true; Key K_DOWN true] ++ [Key K_ESCAPE true]))
    = (if exit_ok (failing false true []) then SearchReturned (None, 2)
       else if print_ok (failing false true []) then SearchReturned (None, 0)
       else SearchRaised)
  /\ display_search_results Sample.skills true 2
       (with_ticks (failing false true []) [])
     = SearchWaiting 2
  /\ display_search_results Sample.skills true 0
       (with_ticks (failing false true [])
          ([Key K_DOWN true; Key K_DOWN true] ++ [ReadError]))
     = (if print_ok (failing false true []) then SearchReturned (None, 0)
        else SearchRaised).
Proof.
  apply (search_cancel_resumes Sample.skills 0 (failing false true [])
           [Key K_DOWN true; Key K_DOWN true] K_ESCAPE true 2);
    [lia | reflexivity | reflexivity].
Defined.

(** ** The search table: rows and cells *)

Section SearchTable.

Lemma nth_error_enumerate_from {A} (l : list A) :
  forall start n,
    nth_error (enumerate_from start l) n
    = option_map (fun x => (start + Z.of_nat n, x)) (nth_error l n).
Proof.
  induction l as [|x l IH]; intros start n; destruct n as [|n]; simpl;
    try reflexivity.
  - rewrite Z.add_0_r. reflexivity.
  - rewrite IH. destruct (nth_error l n); simpl; [|reflexivity].
    do 2 f_equal. lia.
Qed.

Lemma length_enumerate_from {A} (l : list A) :
  forall start, List.length (enumerate_from start l) = List.length l.
Proof.
  induction l as [|x l IH]; intros start; simpl;
    [reflexivity | rewrite IH; reflexivity].
Qed.

Lemma nth_error_row_styles (skills : list Skill) (sel : Z) (n : nat) :
  nth_error (row_styles skills sel) n
  = option_map (fun _ => row_style (Z.of_nat n) sel) (nth_error skills n).
Proof.
  unfold row_styles, enumerate. rewrite nth_error_map, nth_error_enumerate_from.
  destruct (nth_error skills n); reflexivity.
Qed.

Lemma index_nonneg {A} (l : list A) (n : nat) :
  index l (Z.of_nat n) = nth_error l n.
Proof.
  unfold index. destruct (Z.leb_spec 0 (Z.of_nat n)); [|lia].
  rewrite Nat2Z.id. reflexivity.
Qed.

(** The length bound of [truncate], for use on cells. *)
Lemma truncate_len_le (text : str) (max_length : Z) :
  3 <= max_length -> len (truncate text max_length) <= max_length.
Proof.
  intros Hmax. unfold truncate. destruct text as [|c text'].
  - unfold len. simpl. lia.
  - destruct (Z.leb_spec (len (c :: text')) max_length) as [Hle|Hgt];
      [exact Hle|].
    rewrite len_app, len_ELLIPSIS, len_slice_to; lia.
Qed.

Lemma slice_to_prefix {A} (l : list A) (k : Z) :
  0 <= k -> l = slice_to l k ++ skipn (Z.to_nat k) l.
Proof.
  intros Hk. unfold slice_to. destruct (Z.leb_spec 0 k); [|lia].
  symmetry. apply firstn_skipn.
Qed.

Lemma len_slice_to_le {A} (l : list A) (k : Z) :
  0 <= k -> len (slice_to l k) = Z.min k (len l).
Proof.
  intros Hk. unfold slice_to. destruct (Z.leb_spec 0 k); [|lia].
  unfold len. rewrite List.length_firstn. lia.
Qed.

End SearchTable.

(** X10. The table has one row style per skill, and row [n] is shown in
    reverse video exactly when [n] is the selected index: no row at all
    when the index is outside the list, as in the static table. The
    highlighted row is the skill that [enter] returns. *)
Theorem row_styles_highlight (skills : list Skill) (sel : Z) :
  List.length (row_styles skills sel) = List.length skills
  /\ (forall n style,
        nth_error (row_styles skills sel) n = Some style ->
        (style = Some (lit "reverse") <-> Z.of_nat n = sel)
        /\ (style = None <-> Z.of_nat n <> sel))
  /\ (~ in_range skills sel -> Forall (eq None) (row_styles skills sel))
  /\ (forall n s ok,
        nth_error (row_styles skills sel) n = Some (Some (lit "reverse")) ->
        nth_error skills n = Some s ->
        search_step skills sel (Key K_ENTER ok) = SReturn (Some s, sel)).
Proof.
  assert (Hstyle : forall n style,
             nth_error (row_styles skills sel) n = Some style ->
             (style = Some (lit "reverse") <-> Z.of_nat n = sel)
             /\ (style = None <-> Z.of_nat n <> sel)).
  { intros n style. rewrite nth_error_row_styles.
    destruct (nth_error skills n); [|discriminate]. simpl. intros [= <-].
    unfold row_style. destruct (Z.eqb_spec (Z.of_nat n) sel);
      split; split; intros; congruence. }
  split; [|split; [exact Hstyle|split]].
  - unfold row_styles, enumerate.
    rewrite List.length_map, length_enumerate_from. reflexivity.
  - intros Hout. apply Forall_forall. intros style Hin.
    apply list_elem_of_In, In_nth_error in Hin as [n Hn].
    destruct (Hstyle n style Hn) as [_ [_ Hnone]]. symmetry. apply Hnone.
    intros <-. apply Hout. unfold in_range, len.
    assert (n < List.length skills)%nat; [|lia].
    apply nth_error_Some. rewrite nth_error_row_styles in Hn.
    destruct (nth_error skills n); [congruence | discriminate].
  - intros n s ok Hn Hs. destruct (Hstyle n _ Hn) as [[Hrev _] _].
    specialize (Hrev eq_refl). subst sel.
    change (search_step skills (Z.of_nat n) (Key K_ENTER ok))
      with (match index skills (Z.of_nat n) with
            | None => SRaise
            | Some skill => SReturn (Some skill, Z.of_nat n)
            end).
    rewrite index_nonneg, Hs. reflexivity.
Qed.

(** X11. In a row of the search table the description cell never has
    more than 70 characters and the id cell never more than 11. The id
    cell is the first eight characters of the id followed by the
    ellipsis, also when the id is short enough to be shown whole. *)
Theorem search_cells_bounded (skill : Skill) :
  len (description_cell skill) <= 70
  /\ (skill_description skill = None -> description_cell skill = [])
  /\ len (id_cell skill) = Z.min 8 (len (skill_id skill)) + 3
  /\ len (id_cell skill) <= 11
  /\ (len (skill_id skill) <= 8 -> id_cell skill = skill_id skill ++ ELLIPSIS)
  /\ exists rest, skill_id skill = slice_to (skill_id skill) 8 ++ rest.
Proof.
  assert (Hlen : len (id_cell skill) = Z.min 8 (len (skill_id skill)) + 3).
  { unfold id_cell. rewrite len_app, len_ELLIPSIS, len_slice_to_le; lia. }
  split; [apply truncate_len_le; lia|].
  split; [intros Hnone; unfold description_cell; rewrite Hnone; reflexivity|].
  split; [exact Hlen|]. split; [lia|]. split.
  - intros Hshort. unfold id_cell, slice_to. simpl.
    rewrite List.firstn_all2; [reflexivity|]. unfold len in Hshort. lia.
  - exists (skipn (Z.to_nat 8) (skill_id skill)). apply slice_to_prefix. lia.
Qed.

Lemma row_styles_highlight_witness :
  search_step Sample.skills 1 (Key K_ENTER true)
  = SReturn (Some (Sample.skill "docx"), 1).
Proof.
  destruct (row_styles_highlight Sample.skills 1) as (_ & _ & _ & Henter).
  apply (Henter 1%nat (Sample.skill "docx") true); reflexivity.
Defined.

Lemma search_cells_bounded_witness :
  description_cell (Sample.skill "pdf") = []
  /\ id_cell (Sample.skill "pdf") = skill_id (Sample.skill "pdf") ++ ELLIPSIS.
Proof.
  destruct (search_cells_bounded (Sample.skill "pdf"))
    as (_ & Hnone & _ & _ & Hshort & _).
  split; [apply Hnone; reflexivity | apply Hshort; vm_compute; discriminate].
Defined.

(** ** The star count with thousands separators *)

Section Thousands.

Lemma list_ind3 {A} (P : list A -> Prop) :
  P [] -> (forall a, P [a]) -> (forall a b, P [a; b]) ->
  (forall a b c l, P l -> P (a :: b :: c :: l)) ->
  forall l, P l.
Proof.
  intros H0 H1 H2 H3.
  assert (Hall : forall l,
             P l /\ (forall a, P (a :: l)) /\ (forall a b, P (a :: b :: l))).
  { induction l as [|x l (IH0 & IH1 & IH2)]; repeat split; auto. }
  intros l. apply Hall.
Qed.

Lemma concat_chunk3 {A} (l : list A) : List.concat (chunk3 l) = l.
Proof.
  induction l as [|a|a b|a b c l IH] using list_ind3; try reflexivity.
  simpl. rewrite IH. reflexivity.
Qed.

Lemma chunk3_threes {A} (l : list A) :
  (List.length l mod 3 = 0)%nat ->
  Forall (fun g => List.length g = 3%nat) (chunk3 l).
Proof.
  induction l as [|a|a b|a b c l IH] using list_ind3; intros Hmod.
  - constructor.
  - discriminate.
  - discriminate.
  - cbn [chunk3]. constructor; [reflexivity|]. apply IH.
    cbn [List.length] in Hmod.
    replace (S (S (S (List.length l)))) with (List.length l + 1 * 3)%nat
      in Hmod by lia.
    rewrite Nat.Div0.mod_add in Hmod. exact Hmod.
Qed.

Lemma group3_shape (digits : str) :
  digits <> [] ->
  exists first rest,
    group3 digits = first :: rest
    /\ first ++ List.concat rest = digits
    /\ (1 <= List.length first <= 3)%nat
    /\ Forall (fun g => List.length g = 3%nat) rest.
Proof.
  intros Hne. unfold group3.
  pose proof (Nat.mod_upper_bound (List.length digits) 3 ltac:(lia)) as Hr.
  pose proof (Nat.div_mod_eq (List.length digits) 3) as Hdiv.
  set (r := (List.length digits mod 3)%nat) in *.
  destruct (Nat.eqb_spec r 0) as [Hzero|Hpos].
  - rewrite Hzero. cbn [skipn app].
    destruct digits as [|a [|b [|c l]]]; [congruence|discriminate|discriminate|].
    exists [a; b; c], (chunk3 l). cbn [chunk3].
    split; [reflexivity|]. split; [simpl; rewrite concat_chunk3; reflexivity|].
    split; [simpl; lia|]. apply chunk3_threes.
    subst r. cbn [List.length] in Hzero.
    replace (S (S (S (List.length l)))) with (List.length l + 1 * 3)%nat
      in Hzero by lia.
    rewrite Nat.Div0.mod_add in Hzero. exact Hzero.
  - exists (firstn r digits), (chunk3 (skipn r digits)). cbn [app].
    split; [reflexivity|].
    split; [rewrite concat_chunk3; apply firstn_skipn|].
    split; [rewrite List.length_firstn; lia|].
    apply chunk3_threes. rewrite List.length_skipn.
    replace (List.length digits - r)%nat
      with (3 * (List.length digits / 3))%nat by lia.
    rewrite Nat.mul_comm. apply Nat.Div0.mod_mul.
Qed.

Lemma unlit_lit (s : string) : unlit (lit s) = s.
Proof.
  unfold unlit, lit. rewrite List.map_map.
  rewrite (List.map_ext _ (fun a => a)) by apply ascii_N_embedding.
  rewrite List.map_id. apply string_of_list_ascii_of_string.
Qed.

(** Reading back the decimal text of an int gives the int. *)
Lemma parse_str_of_int (z : Z) : parse_decimal (str_of_int z) = Some z.
Proof.
  unfold parse_decimal, str_of_int. rewrite unlit_lit, NilZero.isi.
  - simpl. rewrite DecimalZ.of_to. reflexivity.
  - destruct z; simpl; try discriminate.
    intros [= H]. eapply DecimalPos.Unsigned.to_uint_nonnil. exact H.
  - destruct z; simpl; try discriminate.
    intros [= H]. eapply DecimalPos.Unsigned.to_uint_nonnil. exact H.
Qed.

Lemma str_of_int_nonempty (z : Z) : str_of_int z <> [].
Proof.
  intros Hnil. pose proof (parse_str_of_int z) as Hparse.
  rewrite Hnil in Hparse. discriminate.
Qed.

End Thousands.

(** X12. The star count of a row is a dash when the count is not
    positive. Otherwise it is the decimal digits of the count cut into
    groups joined by commas: a first group of one to three digits and
    then groups of exactly three; put together the groups read back as
    the count. *)
Theorem github_stars_display_groups (skill : Skill) :
  (github_stars skill <= 0 -> github_stars_display skill = lit "-")
  /\ (0 < github_stars skill ->
      exists first rest,
        github_stars_display skill = join [COMMA] (first :: rest)
        /\ first ++ List.concat rest = str_of_int (github_stars skill)
        /\ (1 <= List.length first <= 3)%nat
        /\ Forall (fun g => List.length g = 3%nat) rest
        /\ parse_decimal (first ++ List.concat rest) = Some (github_stars skill)).
Proof.
  unfold github_stars_display. split; intros Hstars.
  - destruct (Z.ltb_spec 0 (github_stars skill)); [lia | reflexivity].
  - destruct (Z.ltb_spec 0 (github_stars skill)); [|lia].
    unfold format_commas.
    destruct (Z.ltb_spec (github_stars skill) 0); [lia|].
    destruct (group3_shape (str_of_int (github_stars skill))
                (str_of_int_nonempty _)) as (first & rest & -> & Hcat & Hfirst & Hrest).
    exists first, rest. rewrite Hcat.
    repeat split; try assumption; try lia. apply parse_str_of_int.
Qed.

Lemma github_stars_display_groups_witness :
  exists first rest,
    github_stars_display
      {| skill_id := lit "a"; skill_name := lit "a"; skill_description := None;
         average_rating := rating_3_7; github_stars := 1234567 |}
    = join [COMMA] (first :: rest)
    /\ first ++ List.concat rest = str_of_int 1234567
    /\ (1 <= List.length first <= 3)%nat
    /\ Forall (fun g => List.length g = 3%nat) rest
    /\ parse_decimal (first ++ List.concat rest) = Some 1234567.
Proof.
  refine (proj2 (github_stars_display_groups
                   {| skill_id := lit "a"; skill_name := lit "a";
                      skill_description := None;
                      average_rating := rating_3_7;
                      github_stars := 1234567 |}) _).
  simpl. lia.
Defined.

(** ** The agent-selection screen: cursor, toggles and output *)

Section AgentLoop.

Variable agents : list Agent.
Variable term : terminal.

Lemma index_in_range {A} (l : list A) (c : Z) :
  0 <= c < len l -> exists x, index l c = Some x.
Proof.
  intros [Hlo Hhi]. unfold index. destruct (Z.leb_spec 0 c); [|lia].
  destruct (nth_error l (Z.to_nat c)) as [x|] eqn:Hnth; [exists x; reflexivity|].
  apply nth_error_None in Hnth. unfold len in Hhi. lia.
Qed.

Lemma elements_nil_empty (sel : gset str) : elements sel = [] -> sel = ∅.
Proof.
  intros Hnil. apply set_eq. intros x.
  rewrite <- elem_of_elements, Hnil, elem_of_nil, elem_of_empty. reflexivity.
Qed.

(** A turn whose read and redraw succeed, taken with a cursor in range:
    it never raises, it keeps the cursor in range, it confirms only a
    non-empty selection and cancels only on a cancel key. *)
Lemma agent_step_clean (st : agent_state) (key : str) :
  cursor_ok agents st ->
  match agent_step agents st (Key key true) with
  | AContinue st' _ => cursor_ok agents st'
  | ABreak => selected st <> ∅
  | ACancel => is_cancel key = true
  | ARaise _ => False
  end.
Proof.
  intros Hc. assert (Hn : 0 < len agents) by (unfold cursor_ok in Hc; lia).
  destruct (index_in_range agents (cursor_index st) Hc) as [agent Hidx].
  unfold agent_step, redraw. rewrite !mod_pos, Hidx by exact Hn.
  repeat case_bool_decide; try assumption.
  - unfold cursor_ok. simpl. apply Z.mod_pos_bound, Hn.
  - unfold cursor_ok. simpl. apply Z.mod_pos_bound, Hn.
  - destruct (is_cancel key); [reflexivity | assumption].
Qed.

(** Any turn that lets the loop go on keeps the cursor in range. *)
Lemma agent_step_cursor (st : agent_state) (t : tick) :
  cursor_ok agents st ->
  match agent_step agents st t with
  | AContinue st' _ => cursor_ok agents st'
  | _ => True
  end.
Proof.
  intros Hc. destruct t as [key ok|]; [|exact I].
  assert (Hn : 0 < len agents) by (unfold cursor_ok in Hc; lia).
  unfold agent_step, redraw. rewrite !mod_pos by exact Hn.
  repeat case_bool_decide; try assumption; try exact I.
  - destruct ok; [|exact I]. unfold cursor_ok. simpl.
    apply Z.mod_pos_bound, Hn.
  - destruct ok; [|exact I]. unfold cursor_ok. simpl.
    apply Z.mod_pos_bound, Hn.
  - destruct (index agents (cursor_index st)); [destruct ok|]; try exact I.
    exact Hc.
  - destruct (is_cancel key); [exact I | assumption].
Qed.

Lemma agent_loop_cursor (ts : list tick) :
  forall st out st' out',
    cursor_ok agents st ->
    agent_loop agents term st out ts = AgentWaiting st' out' ->
    cursor_ok agents st'.
Proof.
  induction ts as [|t ts IH]; intros st out st' out' Hc; cbn [agent_loop].
  - intros [= <- _]. exact Hc.
  - pose proof (agent_step_cursor st t Hc) as Hstep.
    unfold agent_print_return.
    destruct (agent_step agents st t);
      [apply IH; exact Hstep | ..];
      destruct (exit_ok term), (print_ok term); discriminate.
Qed.

Lemma agent_step_other_key (st : agent_state) (key : str) (ok : bool) :
  ~ In key AGENT_KEYS -> agent_step agents st (Key key ok) = AContinue st [].
Proof.
  intros Hnot. unfold agent_step, is_cancel.
  rewrite !bool_decide_eq_false_2; [reflexivity|..];
    intros ->; apply Hnot; simpl; auto 10.
Qed.


Lemma agent_loop_clean_empty (ts : list tick) :
  forall st out out',
    cursor_ok agents st ->
    clean ts ->
    agent_loop agents term st out ts = AgentReturned [] out' ->
    exists key, In (Key key true) ts /\ is_cancel key = true.
Proof.
  induction ts as [|t ts IH]; intros st out out' Hc Hclean; cbn [agent_loop];
    [discriminate|].
  apply Forall_cons in Hclean as [[key ->] Hclean].
  pose proof (agent_step_clean st key Hc) as Hstep.
  destruct (agent_step agents st (Key key true)) as [st' o| | |st'].
  - intros Hret. destruct (IH st' _ _ Hstep Hclean Hret) as (k & Hin & Hk).
    exists k. split; [right; exact Hin | exact Hk].
  - unfold agent_print_return.
    destruct (exit_ok term); [|destruct (print_ok term)]; try discriminate;
      intros [= Hnil _]; apply elements_nil_empty in Hnil; contradiction.
  - intros _. exists key. split; [left; reflexivity | exact Hstep].
  - contradiction.
Qed.

End AgentLoop.

(** X13. With at least one agent, the cursor of the agent screen is a
    valid index into the agents whenever the screen waits for a key,
    whatever keys, failures and initial selection came before. *)
Theorem agent_cursor_in_range (agents : list Agent)
    (selected_ids : option (list str)) (interactive : bool) (term : terminal)
    (st : agent_state) (out : list output) :
  agents <> [] ->
  display_agent_selection agents selected_ids interactive term
    = AgentWaiting st out ->
  0 <= cursor_index st < len agents.
Proof.
  intros Hne. unfold display_agent_selection, agent_print_return.
  destruct (negb interactive || negb (isatty term));
    [destruct (print_ok term); discriminate|].
  destruct (live_ok term); [|destruct (print_ok term); discriminate].
  apply agent_loop_cursor. unfold cursor_ok. simpl.
  pose proof (len_pos _ Hne). lia.
Qed.

Lemma agent_cursor_in_range_witness :
  exists st out,
    display_agent_selection Sample.agents None true
      (tty [Key K_UP true; Key K_UP true; Key K_UP true])
    = AgentWaiting st out
    /\ 0 <= cursor_index st < len Sample.agents.
Proof.
  eexists. eexists. split; [vm_compute; reflexivity|].
  eapply (agent_cursor_in_range Sample.agents None true
            (tty [Key K_UP true; Key K_UP true; Key K_UP true]));
    [discriminate | vm_compute; reflexivity].
Defined.

(** X14. One press of space, redrawn, flips the membership of the agent
    under the cursor and nothing else: the cursor stays, every other id
    keeps its place in or out of the selection, and one live update
    shows the new state. A second press undoes the first: the loop goes
    on from the state it was in, two updates later. *)
Theorem agent_space_twice (agents : list Agent) (term : terminal)
    (st : agent_state) (out : list output) (ts : list tick) (agent : Agent) :
  index agents (cursor_index st) = Some agent ->
  agent_loop agents term st out (Key K_SPACE true :: ts)
  = agent_loop agents term
      {| cursor_index := cursor_index st;
         selected := toggle (agent_id agent) (selected st) |}
      (out ++ [LiveUpdate
                 (render agents
                    {| cursor_index := cursor_index st;
                       selected := toggle (agent_id agent) (selected st) |})])
      ts
  /\ (forall x, x ∈ toggle (agent_id agent) (selected st)
                <-> (if bool_decide (x = agent_id agent)
                     then x ∉ selected st else x ∈ selected st))
  /\ agent_loop agents term st out
       (Key K_SPACE true :: Key K_SPACE true :: ts)
     = agent_loop agents term st
         (out ++ [LiveUpdate
                    (render agents
                       {| cursor_index := cursor_index st;
                          selected := toggle (agent_id agent) (selected st) |});
                  LiveUpdate (render agents st)])
         ts.
Proof.
  intros Hidx.
  assert (Hflip : forall (a : str) (sel : gset str) x,
             x ∈ toggle a sel
             <-> (if bool_decide (x = a) then x ∉ sel else x ∈ sel)).
  { intros a sel x. unfold toggle.
    destruct (bool_decide (a ∈ sel)) eqn:Hmem;
      [apply bool_decide_eq_true in Hmem | apply bool_decide_eq_false in Hmem];
      case_bool_decide; subst;
      rewrite ?elem_of_difference, ?elem_of_union, ?elem_of_singleton; tauto. }
  assert (Htwice : forall (a : str) (sel : gset str),
             toggle a (toggle a sel) = sel).
  { intros a sel. apply set_eq. intros x. rewrite Hflip.
    case_bool_decide as Hxa.
    - subst x. rewrite Hflip, bool_decide_eq_true_2 by reflexivity.
      destruct (decide (a ∈ sel)); tauto.
    - rewrite Hflip, bool_decide_eq_false_2 by exact Hxa. reflexivity. }
  assert (Hspace : forall s,
             index agents (cursor_index s) = Some agent ->
             agent_step agents s (Key K_SPACE true)
             = AContinue
                 {| cursor_index := cursor_index s;
                    selected := toggle (agent_id agent) (selected s) |}
                 [LiveUpdate
                    (render agents
                       {| cursor_index := cursor_index s;
                          selected := toggle (agent_id agent) (selected s) |})]).
  { intros s Hs.
    change (agent_step agents s (Key K_SPACE true))
      with (match index agents (cursor_index s) with
            | None => ARaise s
            | Some a =>
                redraw agents
                  {| cursor_index := cursor_index s;
                     selected := toggle (agent_id a) (selected s) |} true
            end).
    rewrite Hs. reflexivity. }
  split; [|split; [apply Hflip|]].
  - cbn [agent_loop]. rewrite Hspace by exact Hidx. reflexivity.
  - cbn [agent_loop]. rewrite Hspace by exact Hidx.
    rewrite Hspace by exact Hidx. cbn [cursor_index selected].
    rewrite Htwice, <- app_assoc. destruct st; reflexivity.
Qed.

Lemma agent_space_twice_witness :
  agent_loop Sample.agents (tty [])
    {| cursor_index := 1; selected := {[ lit "claude" ]} |} []
    [Key K_SPACE true]
  = AgentWaiting
      {| cursor_index := 1;
         selected := toggle (lit "codex") {[ lit "claude" ]} |}
      [LiveUpdate
         (render Sample.agents
            {| cursor_index := 1;
               selected := toggle (lit "codex") {[ lit "claude" ]} |})]
  /\ (lit "codex" ∈ toggle (lit "codex") ({[ lit "claude" ]} : gset str)
      <-> lit "codex" ∉ ({[ lit "claude" ]} : gset str)).
Proof.
  pose proof (agent_space_twice Sample.agents (tty [])
                {| cursor_index := 1; selected := {[ lit "claude" ]} |}
                [] [] Sample.codex eq_refl) as (Hone & Hflip & _).
  split; [exact Hone | exact (Hflip (lit "codex"))].
Defined.

(** X15. With no agents and the default selection the screen can only
    return the empty list: [enter] is always refused, a move or a toggle
    fails into the fallback, and while it waits nothing is selected. It
    raises only when the fallback's print fails. *)
Theorem agent_selection_no_agents (interactive : bool) (term : terminal) :
  match display_agent_selection [] None interactive term with
  | AgentReturned result _ => result = []
  | AgentWaiting st _ => selected st = ∅ /\ cursor_index st = 0
  | AgentRaised _ => print_ok term = false
  end.
Proof.
  assert (Hempty : elements (∅ : gset str) = []) by apply elements_empty.
  assert (Hprint : forall out,
             match agent_print_return [] term
                     {| cursor_index := 0; selected := ∅ |} out with
             | AgentReturned result _ => result = []
             | AgentWaiting st _ => selected st = ∅ /\ cursor_index st = 0
             | AgentRaised _ => print_ok term = false
             end).
  { intros out. unfold agent_print_return.
    destruct (print_ok term); [exact Hempty | reflexivity]. }
  assert (Hloop : forall ts out,
             match agent_loop [] term {| cursor_index := 0; selected := ∅ |}
                     out ts with
             | AgentReturned result _ => result = []
             | AgentWaiting st _ => selected st = ∅ /\ cursor_index st = 0
             | AgentRaised _ => print_ok term = false
             end).
  { induction ts as [|t ts IH]; intros out; cbn [agent_loop];
      [split; reflexivity|].
    destruct t as [key ok|]; [|apply Hprint].
    unfold agent_step, redraw. cbn [cursor_index selected].
    repeat case_bool_decide; try apply Hprint; try apply IH;
      try congruence.
    destruct (is_cancel key); [|apply IH].
    destruct (exit_ok term); [reflexivity | apply Hprint]. }
  unfold display_agent_selection.
  destruct (negb interactive || negb (isatty term)); [apply Hprint|].
  destruct (live_ok term); [apply Hloop | apply Hprint].
Qed.

(** X17. The agent loop reacts to seven keys only. A tick with any other
    key can be dropped from anywhere in the input without changing the
    selection, the cursor, the result or what is written. *)
Theorem agent_ignores_other_keys (agents : list Agent) (term : terminal)
    (st : agent_state) (out : list output) (key : str) (ok : bool)
    (pre post : list tick) :
  ~ In key AGENT_KEYS ->
  agent_loop agents term st out (pre ++ Key key ok :: post)
  = agent_loop agents term st out (pre ++ post).
Proof.
  intros Hnot. rewrite !agent_loop_app.
  destruct (agent_loop agents term st out pre) as [r o|st' o|o];
    [reflexivity| |reflexivity].
  cbn [agent_loop]. rewrite agent_step_other_key by exact Hnot.
  rewrite app_nil_r. reflexivity.
Qed.

Lemma agent_ignores_other_keys_witness :
  agent_loop Sample.agents (tty []) {| cursor_index := 0; selected := ∅ |} []
    ([Key K_SPACE true] ++ Key K_RIGHT false :: [Key K_ENTER true])
  = agent_loop Sample.agents (tty []) {| cursor_index := 0; selected := ∅ |} []
      ([Key K_SPACE true] ++ [Key K_ENTER true]).
Proof.
  apply (agent_ignores_other_keys Sample.agents (tty [])).
  unfold AGENT_KEYS, SEARCH_KEYS. simpl. intros H.
  repeat (destruct H as [H|H]; [discriminate|]). exact H.
Defined.



(** X19. With at least one agent, when no read and no redraw fails, an
    empty result means that a cancel key was pressed: confirming never
    returns the empty list, whether or not leaving the display fails. *)
Theorem agent_empty_result_means_cancel (agents : list Agent)
    (selected_ids : option (list str)) (term : terminal) (ts : list tick)
    (out : list output) :
  agents <> [] ->
  isatty term = true ->
  live_ok term = true ->
  clean ts ->
  display_agent_selection agents selected_ids true (with_ticks term ts)
    = AgentReturned [] out ->
  exists key, In (Key key true) ts /\ is_cancel key = true.
Proof.
  intros Hne Htty Hlive Hclean.
  rewrite display_agent_selection_live by assumption. cbv zeta.
  apply agent_loop_clean_empty; [|exact Hclean].
  unfold cursor_ok. simpl. pose proof (len_pos _ Hne). lia.
Qed.

Lemma agent_empty_result_means_cancel_witness :
  exists key,
    In (Key key true) [Key K_SPACE true; Key K_Q true]
    /\ is_cancel key = true.
Proof.
  eapply (agent_empty_result_means_cancel Sample.agents None (tty [])
            [Key K_SPACE true; Key K_Q true]).
  - discriminate.
  - reflexivity.
  - reflexivity.
  - repeat constructor; eexists; reflexivity.
  - vm_compute. reflexivity.
Defined.

(** ** The skill-detail screen *)

Section DetailLoop.

Variable has_back : bool.

Lemma detail_loop_app (pre post : list tick) :
  detail_loop has_back (pre ++ post)
  = match detail_loop has_back pre with
    | DetailWaiting => detail_loop has_back post
    | returned => returned
    end.
Proof.
  induction pre as [|t pre IH]; simpl; [reflexivity|].
  destruct (detail_step has_back t); try reflexivity. apply IH.
Qed.

Lemma detail_step_actions (t : tick) (action : option str) :
  detail_step has_back t = DReturn action ->
  (action = Some A_INSTALL \/ action = Some A_BACK \/ action = None)
  /\ (action = Some A_BACK -> has_back = true).
Proof.
  destruct t as [key ok|]; [|discriminate]. unfold detail_step.
  destruct (bool_decide (key = lit "i") || bool_decide (key = lit "I")).
  - intros [= <-]. split; [auto | discriminate].
  - destruct (bool_decide (key = K_LEFT) && has_back) eqn:Hleft.
    + intros [= <-]. apply andb_true_iff in Hleft as [_ Hback].
      split; [auto | intros _; exact Hback].
    + destruct (bool_decide (key = K_Q) || bool_decide (key = lit "Q")
                || bool_decide (key = K_ESCAPE) || bool_decide (key = K_CTRL_C));
        [|discriminate].
      intros [= <-]. split; [auto | discriminate].
Qed.

Lemma detail_loop_actions (ts : list tick) (action : option str) :
  detail_loop has_back ts = DetailReturned action ->
  (action = Some A_INSTALL \/ action = Some A_BACK \/ action = None)
  /\ (action = Some A_BACK -> has_back = true).
Proof.
  induction ts as [|t ts IH]; simpl; [discriminate|].
  destruct (detail_step has_back t) as [|a|] eqn:Hstep.
  - exact IH.
  - intros [= <-]. eapply detail_step_actions. exact Hstep.
  - intros [= <-]. split; [auto | discriminate].
Qed.

Lemma detail_step_other_key (key : str) (ok : bool) :
  ~ In key (detail_keys has_back) ->
  detail_step has_back (Key key ok) = DContinue.
Proof.
  intros Hnot. unfold detail_step.
  assert (Hleft : bool_decide (key = K_LEFT) && has_back = false).
  { apply andb_false_iff. destruct has_back; [left|right; reflexivity].
    apply bool_decide_eq_false_2. intros ->. apply Hnot. simpl. auto 10. }
  rewrite Hleft.
  rewrite !bool_decide_eq_false_2; [reflexivity|..];
    intros ->; apply Hnot; unfold detail_keys; simpl; auto 10.
Qed.

End DetailLoop.

(** X20. The detail screen returns [install], [back] or nothing;
    [back] only when the caller offered it, and anything but nothing only
    in interactive mode on a terminal. *)
Theorem detail_actions (interactive has_back : bool) (term : terminal)
    (action : option str) :
  display_skill_detail interactive has_back term = DetailReturned action ->
  (action = Some A_INSTALL \/ action = Some A_BACK \/ action = None)
  /\ (action = Some A_BACK -> has_back = true)
  /\ (action <> None -> interactive = true /\ isatty term = true).
Proof.
  unfold display_skill_detail.
  destruct (interactive && isatty term) eqn:Hmode.
  - intros Hloop. apply detail_loop_actions in Hloop as [Hrange Hback].
    apply andb_true_iff in Hmode. auto.
  - intros [= <-]. repeat split; auto; try discriminate; congruence.
Qed.

Lemma detail_actions_witness :
  (Some A_BACK = Some A_INSTALL \/ Some A_BACK = Some A_BACK
   \/ Some A_BACK = None)
  /\ (Some A_BACK = Some A_BACK -> true = true)
  /\ (Some A_BACK <> None -> true = true /\ isatty (tty []) = true).
Proof.
  apply (detail_actions true true
           (tty [Key K_UP true; Key K_LEFT true]) (Some A_BACK)).
  reflexivity.
Defined.

(** X21. The detail loop reacts to [i], [I], [q], [Q], [escape] and
    [ctrl+c], and to [left] only when going back is offered. A tick with
    any other key can be dropped from anywhere in the input. *)
Theorem detail_ignores_other_keys (has_back : bool) (key : str) (ok : bool)
    (pre post : list tick) :
  ~ In key (detail_keys has_back) ->
  detail_loop has_back (pre ++ Key key ok :: post)
  = detail_loop has_back (pre ++ post).
Proof.
  intros Hnot. rewrite !detail_loop_app.
  destruct (detail_loop has_back pre); [reflexivity|].
  cbn [detail_loop]. rewrite detail_step_other_key by exact Hnot. reflexivity.
Qed.

Lemma detail_ignores_other_keys_witness :
  detail_loop false ([] ++ Key K_LEFT true :: [Key (lit "i") true])
  = detail_loop false ([] ++ [Key (lit "i") true]).
Proof.
  apply (detail_ignores_other_keys false K_LEFT true).
  unfold detail_keys. simpl. intros H.
  repeat (destruct H as [H|H]; [discriminate|]). exact H.
Defined.



(** ** The text helpers, further *)

Section TextHelpersMore.

Lemma len_rep_single {A} (x : A) (n : Z) : len (rep [x] n) = Z.max n 0.
Proof.
  unfold rep, len.
  assert (Hlen : forall k, List.length (List.concat (List.repeat [x] k)) = k).
  { induction k as [|k IH]; simpl; [reflexivity | rewrite IH; reflexivity]. }
  rewrite Hlen. lia.
Qed.

Lemma rep_single_all {A} (x : A) (n : Z) : Forall (eq x) (rep [x] n).
Proof.
  unfold rep. induction (Z.to_nat n) as [|k IH]; simpl;
    [constructor | constructor; [reflexivity | exact IH]].
Qed.

Lemma len_slice_to_neg {A} (l : list A) (k : Z) :
  k < 0 -> len (slice_to l k) = Z.max (len l + k) 0.
Proof.
  intros Hk. unfold slice_to. destruct (Z.leb_spec 0 k); [lia|].
  unfold len. rewrite List.length_firstn. lia.
Qed.

End TextHelpersMore.

(** X23. For [max_length >= 3], truncating is idempotent, and the text
    comes back unchanged exactly when it fits. *)
Theorem truncate_idempotent (text : str) (max_length : Z) :
  3 <= max_length ->
  truncate (truncate text max_length) max_length = truncate text max_length
  /\ (truncate text max_length = text <-> len text <= max_length).
Proof.
  intros Hmax. pose proof (truncate_len_le text max_length Hmax) as Hle.
  split.
  - unfold truncate at 1. destruct (truncate text max_length) as [|c r] eqn:Ht;
      [reflexivity|].
    destruct (Z.leb_spec (len (c :: r)) max_length); [reflexivity | lia].
  - split.
    + intros Heq. rewrite Heq in Hle. exact Hle.
    + intros Hfit. unfold truncate. destruct text as [|c r]; [reflexivity|].
      destruct (Z.leb_spec (len (c :: r)) max_length); [reflexivity | lia].
Qed.

Lemma truncate_idempotent_witness :
  truncate (truncate (lit "hello world") 8) 8 = truncate (lit "hello world") 8.
Proof.
  refine (proj1 (truncate_idempotent (lit "hello world") 8 _)). lia.
Defined.

(** X24. Below 3 the stop of the slice is negative and counts from the
    end: a text longer than [max_length < 3] loses its last
    [3 - max_length] characters and gains the ellipsis, so the result
    has at least three characters and is always longer than
    [max_length]. *)
Theorem truncate_below_three (text : str) (max_length : Z) :
  max_length < 3 ->
  text <> [] ->
  max_length < len text ->
  truncate text max_length = slice_to text (max_length - 3) ++ ELLIPSIS
  /\ len (truncate text max_length) = Z.max (len text + max_length - 3) 0 + 3
  /\ max_length < len (truncate text max_length).
Proof.
  intros Hmax Hne Hlong.
  assert (Heq : truncate text max_length
                = slice_to text (max_length - 3) ++ ELLIPSIS).
  { unfold truncate. destruct text as [|c r]; [congruence|].
    destruct (Z.leb_spec (len (c :: r)) max_length); [lia | reflexivity]. }
  split; [exact Heq|]. rewrite Heq, len_app, len_ELLIPSIS.
  rewrite len_slice_to_neg by lia. split; lia.
Qed.

Lemma truncate_below_three_witness :
  len (truncate (lit "hello") 0) = Z.max (len (lit "hello") + 0 - 3) 0 + 3.
Proof.
  refine (proj1 (proj2 (truncate_below_three (lit "hello") 0 _ _ _)));
    [lia | discriminate | vm_compute; reflexivity].
Defined.

(** X25. When the integer part of the rating is at least 0 and below
    [max_stars], the star string has exactly [max_stars] glyphs, each a
    full, half or empty star. *)
Theorem rating_stars_length (rating : float) (max_stars : Z) (s : str)
    (full_stars : Z) :
  rating_stars rating max_stars = Some s ->
  int_of_float rating = Some full_stars ->
  0 <= full_stars < max_stars ->
  len s = max_stars
  /\ Forall (fun g => [g] = FULL_STAR \/ [g] = HALF_STAR \/ [g] = EMPTY_STAR) s.
Proof.
  unfold rating_stars. intros Hs Hint Hrange. rewrite Hint in Hs.
  destruct (float_of_int full_stars) as [f|]; [|discriminate].
  injection Hs as <-. unfold FULL_STAR, HALF_STAR, EMPTY_STAR.
  split.
  - rewrite !len_app, !len_rep_single.
    destruct (PrimFloat.leb _ _); unfold len; simpl; lia.
  - repeat apply Forall_app_2.
    + eapply Forall_impl; [apply rep_single_all|]. intros g <-. auto.
    + destruct (PrimFloat.leb _ _);
        [constructor; [auto | constructor] | constructor].
    + eapply Forall_impl; [apply rep_single_all|]. intros g <-. auto.
Qed.

Lemma rating_stars_length_witness :
  exists s,
    rating_stars 0x1.2p+2%float 5 = Some s
    /\ len s = 5
    /\ Forall (fun g => [g] = FULL_STAR \/ [g] = HALF_STAR \/ [g] = EMPTY_STAR) s.
Proof.
  eexists. split; [vm_compute; reflexivity|].
  apply (rating_stars_length 0x1.2p+2%float 5 _ 4);
    [vm_compute; reflexivity | vm_compute; reflexivity | lia].
Defined.

(** ** The installed list *)

Section InstalledList.

Variables old new : str.

Lemma startswith_app (rest : str) : startswith old (old ++ rest) = true.
Proof.
  unfold startswith. apply bool_decide_eq_true_2.
  rewrite List.firstn_app, Nat.sub_diag, List.firstn_all. simpl.
  apply app_nil_r.
Qed.

Lemma replace_from_skip (pre rest : str) :
  replace_from old new (pre ++ rest) (List.length pre)
  = replace_from old new rest 0.
Proof.
  induction pre as [|c pre IH]; simpl; [|exact IH].
  destruct rest; reflexivity.
Qed.

Lemma replace_prefix (rest : str) :
  old <> [] -> replace old new (old ++ rest) = new ++ replace old new rest.
Proof.
  intros Hne. unfold replace. destruct old as [|c old'] eqn:Hold; [congruence|].
  rewrite <- Hold. assert (Hs : old ++ rest = c :: (old' ++ rest))
    by (rewrite Hold; reflexivity).
  rewrite Hs at 1. cbn [replace_from]. rewrite <- Hs, startswith_app.
  f_equal. replace (List.length old - 1)%nat with (List.length old')
    by (rewrite Hold; simpl; lia).
  apply replace_from_skip.
Qed.

Lemma replace_absent (s : str) :
  old <> [] ->
  (forall n, startswith old (skipn n s) = false) ->
  replace old new s = s.
Proof.
  intros Hne. unfold replace. destruct old as [|c0 old'] eqn:Hold; [congruence|].
  rewrite <- Hold. clear Hold Hne.
  induction s as [|c s IH]; intros Habs; [reflexivity|].
  cbn [replace_from]. pose proof (Habs 0%nat) as Hhere. simpl in Hhere.
  rewrite Hhere. f_equal.
  apply IH. intros n. apply (Habs (S n)).
Qed.

Lemma replace_cons_nomatch (c : N) (s : str) :
  old <> [] ->
  startswith old (c :: s) = false ->
  replace old new (c :: s) = c :: replace old new s.
Proof.
  intros Hne Hno. unfold replace.
  destruct old as [|c0 old'] eqn:Hold; [congruence|].
  rewrite <- Hold in *. cbn [replace_from]. rewrite Hno. reflexivity.
Qed.

(** The first occurrence: everything before it is kept, the occurrence
    is replaced, and the search goes on behind it. *)
Lemma replace_first (pre rest : str) :
  old <> [] ->
  (forall n, (n < List.length pre)%nat ->
             startswith old (skipn n (pre ++ old ++ rest)) = false) ->
  replace old new (pre ++ old ++ rest) = pre ++ new ++ replace old new rest.
Proof.
  intros Hne. induction pre as [|c pre IH]; intros Habs.
  - apply replace_prefix. exact Hne.
  - cbn [app]. rewrite replace_cons_nomatch.
    + f_equal. apply IH. intros n Hn. apply (Habs (S n)). simpl. lia.
    + exact Hne.
    + apply (Habs 0%nat). simpl. lia.
Qed.

End InstalledList.

(** X26. In a row of the installed list the date cell is the first ten
    characters of the timestamp, so the date of a timestamp that starts
    with a ten-character date, and ["Unknown"] when there is none; the id
    cell is empty for an empty id and has at most 11 characters. *)
Theorem installed_cells (skill : InstalledSkill) :
  len (date_str skill) <= 10
  /\ (installed_at skill = [] -> date_str skill = lit "Unknown")
  /\ (forall date rest,
        installed_at skill = date ++ rest -> len date = 10 ->
        date_str skill = date)
  /\ len (installed_id_cell skill) <= 11
  /\ (installed_id skill = [] -> installed_id_cell skill = []).
Proof.
  split; [|split; [|split; [|split]]].
  - unfold date_str. destruct (installed_at skill) as [|c r];
      [vm_compute; discriminate|].
    rewrite len_slice_to_le by lia. lia.
  - intros Hnone. unfold date_str. rewrite Hnone. reflexivity.
  - intros date rest Hat Hlen. unfold date_str. rewrite Hat.
    assert (Hdate : slice_to (date ++ rest) 10 = date).
    { unfold slice_to. simpl. unfold len in Hlen.
      rewrite List.firstn_app.
      replace (Z.to_nat 10 - List.length date)%nat with 0%nat by lia.
      rewrite List.firstn_all2 by lia. simpl. apply app_nil_r. }
    destruct (date ++ rest) eqn:Happ; [|exact Hdate].
    destruct date; [unfold len in Hlen; simpl in Hlen; lia | discriminate].
  - unfold installed_id_cell. destruct (installed_id skill) as [|c r];
      [unfold len; simpl; lia|].
    rewrite len_app, len_ELLIPSIS, len_slice_to_le by lia. lia.
  - intros Hnone. unfold installed_id_cell. rewrite Hnone. reflexivity.
Qed.

Lemma installed_cells_witness :
  date_str {| installed_id := lit "abc"; installed_name := lit "pdf";
              installed_at := lit "2025-01-31T10:20:30";
              installed_path := lit "/root/.claude/skills/pdf" |}
  = lit "2025-01-31".
Proof.
  destruct (installed_cells
              {| installed_id := lit "abc"; installed_name := lit "pdf";
                 installed_at := lit "2025-01-31T10:20:30";
                 installed_path := lit "/root/.claude/skills/pdf" |})
    as (_ & _ & Hdate & _).
  apply (Hdate (lit "2025-01-31") (lit "T10:20:30")); reflexivity.
Defined.

(** X27. The path cell is the path with every occurrence of the home
    directory replaced by a tilde, found from the left: up to the first
    occurrence the path is kept, wherever in the path that occurrence
    starts, the occurrence becomes the tilde, and what follows is
    searched in the same way; a text in which home does not occur is
    kept as it is, and an empty path gives the empty string. *)
Theorem short_path_home (home : str) (skill : InstalledSkill) :
  home <> [] ->
  short_path home skill = replace home (lit "~") (installed_path skill)
  /\ (forall pre rest,
        (forall n, (n < List.length pre)%nat ->
                   startswith home (skipn n (pre ++ home ++ rest)) = false) ->
        replace home (lit "~") (pre ++ home ++ rest)
        = pre ++ lit "~" ++ replace home (lit "~") rest)
  /\ (forall s,
        (forall n, startswith home (skipn n s) = false) ->
        replace home (lit "~") s = s)
  /\ (installed_path skill = [] -> short_path home skill = []).
Proof.
  intros Hne. split; [|split; [|split]].
  - unfold short_path. destruct (installed_path skill) as [|c r];
      [|reflexivity].
    unfold replace. destruct home; [congruence | reflexivity].
  - intros pre rest Habs. apply replace_first; assumption.
  - intros s Habs. apply replace_absent; assumption.
  - unfold short_path. intros ->. reflexivity.
Qed.

Lemma short_path_home_witness :
  short_path (lit "/root")
    {| installed_id := lit "abc"; installed_name := lit "pdf";
       installed_at := lit "2025-01-31T10:20:30";
       installed_path := lit "/mnt/root/x" |}
  = lit "/mnt" ++ lit "~" ++ replace (lit "/root") (lit "~") (lit "/x").
Proof.
  destruct (short_path_home (lit "/root")
              {| installed_id := lit "abc"; installed_name := lit "pdf";
                 installed_at := lit "2025-01-31T10:20:30";
                 installed_path := lit "/mnt/root/x" |})
    as (Hcell & Hfirst & _); [discriminate|].
  rewrite Hcell. apply (Hfirst (lit "/mnt") (lit "/x")).
  intros n Hn. do 4 (destruct n as [|n]; [reflexivity|]).
  simpl in Hn. lia.
Defined.
